(** * FlowScriptX: tokenizer, grammar validator and diagnostic chain

    A shallow embedding of [FlowScriptX.py] and [flowscript2.py].

    Python strings are modelled as [string]; a character is one of the
    code points 0..255.  On that range [\d] is exactly [0-9], and the
    [re.IGNORECASE] comparison of a pattern character of TOKEN_PATTERNS
    (letters, space, colon, [<>=]) with an input character is the
    comparison of their ASCII lower-case forms.

    Python's [re] is a backtracking matcher.  It is modelled by the list
    of all ways a pattern can match a prefix of the text, in the order in
    which the matcher tries them: the head of the list is the match [re]
    reports. *)

From Stdlib Require Import String Ascii List Bool Arith Lia Permutation.
Import ListNotations.
Open Scope string_scope.
Open Scope list_scope.
Open Scope nat_scope.

(** ** Characters and strings *)

Definition is_digit (c : ascii) : bool :=
  (48 <=? nat_of_ascii c) && (nat_of_ascii c <=? 57).

Definition is_upper (c : ascii) : bool :=
  (65 <=? nat_of_ascii c) && (nat_of_ascii c <=? 90).

(** Case folding of [re.IGNORECASE] on the modelled range. *)
Definition fold_case (c : ascii) : ascii :=
  if is_upper c then ascii_of_nat (nat_of_ascii c + 32) else c.

(** [str.lower()]: A-Z, and the upper-case letters of Latin-1
    (U+00C0-U+00DE except the multiplication sign U+00D7). *)
Definition chr_lower (c : ascii) : ascii :=
  let n := nat_of_ascii c in
  if is_upper c then ascii_of_nat (n + 32)
  else if (192 <=? n) && (n <=? 222) && negb (n =? 215)
       then ascii_of_nat (n + 32)
       else c.

Fixpoint lower (s : string) : string :=
  match s with
  | EmptyString => EmptyString
  | String c s' => String (chr_lower c) (lower s')
  end.

(** [sub in s] *)
Fixpoint contains (sub s : string) : bool :=
  prefix sub s ||
  match s with
  | EmptyString => false
  | String _ s' => contains sub s'
  end.

(** [x in xs] for a list of strings *)
Definition mem (x : string) (xs : list string) : bool :=
  existsb (String.eqb x) xs.

(** [int(s)] for a string of decimal digits *)
Definition digit_val (c : ascii) : nat := nat_of_ascii c - 48.

Fixpoint int_acc (acc : nat) (s : string) : nat :=
  match s with
  | EmptyString => acc
  | String c s' => int_acc (10 * acc + digit_val c) s'
  end.

Definition int (s : string) : nat := int_acc 0 s.

(** ** The fragment of [re] the program uses *)

Module Re.

Inductive regex : Type :=
| Lit (s : string)                     (* literal text *)
| Digits (lo : nat) (hi : option nat)  (* \d{lo,hi}, greedy; \d+ is {1,} *)
| Seq (r1 r2 : regex)
| Alt (r1 r2 : regex)                  (* r1|r2, r1 tried first *)
| Group (name : option string) (r : regex).  (* (...) and (?P<name>...) *)

(** A closed group: its name (if any) and the text it matched. *)
Definition capture : Type := option string * string.

(** One way to match: the groups closed, the text read, the text left. *)
Definition rmatch_result : Type := list capture * string * string.

Definition chr_eqb (ic : bool) (a b : ascii) : bool :=
  if ic then Ascii.eqb (fold_case a) (fold_case b) else Ascii.eqb a b.

(** Reading the literal [lit] at the start of [s]: the text read and the
    text left. *)
Fixpoint lit_split (ic : bool) (lit s : string) : option (string * string) :=
  match lit with
  | EmptyString => Some (EmptyString, s)
  | String a lit' =>
      match s with
      | EmptyString => None
      | String b s' =>
          if chr_eqb ic a b
          then match lit_split ic lit' s' with
               | Some (t, rest) => Some (String b t, rest)
               | None => None
               end
          else None
      end
  end.

Definition below (hi : option nat) (n : nat) : bool :=
  match hi with
  | None => true
  | Some h => n <? h
  end.

(** Greedy repetition of [\d]: [n] digits are already read; the longest
    run is tried first, then shorter ones down to [lo]. *)
Fixpoint digit_splits (lo : nat) (hi : option nat) (n : nat) (s : string)
  : list (string * string) :=
  let here := if lo <=? n then [(EmptyString, s)] else [] in
  match s with
  | EmptyString => here
  | String c s' =>
      if is_digit c && below hi n
      then map (fun m => (String c (fst m), snd m)) (digit_splits lo hi (S n) s')
           ++ here
      else here
  end.

(** All matches of [r] at the start of [s], in backtracking order. *)
Fixpoint rmatch (ic : bool) (r : regex) (s : string) : list rmatch_result :=
  match r with
  | Lit lit =>
      match lit_split ic lit s with
      | Some (t, rest) => [([], t, rest)]
      | None => []
      end
  | Digits lo hi => map (fun m => ([], fst m, snd m)) (digit_splits lo hi 0 s)
  | Seq r1 r2 =>
      flat_map
        (fun m1 : rmatch_result =>
           let '(c1, t1, s1) := m1 in
           map (fun m2 : rmatch_result =>
                  let '(c2, t2, s2) := m2 in (c1 ++ c2, (t1 ++ t2)%string, s2))
               (rmatch ic r2 s1))
        (rmatch ic r1 s)
  | Alt r1 r2 => rmatch ic r1 s ++ rmatch ic r2 s
  | Group name r1 =>
      map (fun m : rmatch_result =>
             let '(c, t, rest) := m in (c ++ [(name, t)], t, rest))
          (rmatch ic r1 s)
  end.

(** [re.match]: the first match at the start of [s]. *)
Definition match_at (ic : bool) (r : regex) (s : string) : option rmatch_result :=
  hd_error (rmatch ic r s).

(** [re.search]: the match at the leftmost position that has one. *)
Fixpoint search (ic : bool) (r : regex) (s : string) : option (list capture) :=
  match match_at ic r s with
  | Some (caps, _, _) => Some caps
  | None =>
      match s with
      | EmptyString => None
      | String _ s' => search ic r s'
      end
  end.

(** [finditer]: the matches from left to right, without overlap.  [busy]
    counts the characters of the last match that are still to be passed.
    (After a match of no character the scan moves one character on; no
    pattern of the program matches the empty text.) *)
Fixpoint finditer_from (ic : bool) (r : regex) (busy : nat) (s : string)
  : list (list capture) :=
  match busy with
  | S b =>
      match s with
      | EmptyString => []
      | String _ s' => finditer_from ic r b s'
      end
  | O =>
      match match_at ic r s with
      | Some (caps, t, _) =>
          caps ::
          match s with
          | EmptyString => []
          | String _ s' => finditer_from ic r (String.length t - 1) s'
          end
      | None =>
          match s with
          | EmptyString => []
          | String _ s' => finditer_from ic r 0 s'
          end
      end
  end.

Definition finditer (ic : bool) (r : regex) (s : string) : list (list capture) :=
  finditer_from ic r 0 s.

(** [match.lastgroup]: the name of the group closed last. *)
Definition lastgroup (m : list capture) : option string :=
  match rev m with
  | [] => None
  | c :: _ => fst c
  end.

(** [match.group(name)] *)
Fixpoint group (m : list capture) (name : string) : option string :=
  match m with
  | [] => None
  | (Some n, txt) :: m' => if String.eqb n name then Some txt else group m' name
  | (None, _) :: m' => group m' name
  end.

(** [match.groups()], for a pattern whose groups are not nested *)
Definition groups (m : list capture) : list string := map snd m.

(** [r1|r2|...|rn] *)
Fixpoint alt_of (rs : list regex) : regex :=
  match rs with
  | [] => Lit EmptyString
  | [r] => r
  | r :: rs' => Alt r (alt_of rs')
  end.

(** [r1 r2 ... rn] *)
Fixpoint seq_of (rs : list regex) : regex :=
  match rs with
  | [] => Lit EmptyString
  | [r] => r
  | r :: rs' => Seq r (seq_of rs')
  end.

End Re.
Import Re.

(** ** Token patterns (identical in both files)

    The table, in its declaration order (a dict keeps the order of
    insertion):
<<
    EVENT          on|schedule|if|repeat|activate
    SENSOR         motion|temperature|humidity|door|sound|triggered
    DEVICE         lights|AC|fan|door|alarm|sprinkler|watering
    OPERATION      turn on|turn off|increase|decrease|open|close|start|check
    MODE           night mode|vacation mode|silent mode
    TIME           \d{1,2}:\d{2} (AM|PM)
    TIME_INTERVAL  \d+ (seconds|minutes|hours)
    NUMBER         \d+
    OPERATOR       >|<|>=|<=|==
    THEN           then
    FROM_TO        from|to
    DETECTED       detected
    AT             at
    EVERY          every
>>
*)

(** [w1|w2|...|wn] for literal words *)
Definition words (ws : list string) : regex := alt_of (map Lit ws).

Definition TOKEN_PATTERNS : list (string * regex) :=
  [ ("EVENT", words ["on"; "schedule"; "if"; "repeat"; "activate"]);
    ("SENSOR", words ["motion"; "temperature"; "humidity"; "door"; "sound";
                      "triggered"]);
    ("DEVICE", words ["lights"; "AC"; "fan"; "door"; "alarm"; "sprinkler";
                      "watering"]);
    ("OPERATION", words ["turn on"; "turn off"; "increase"; "decrease"; "open";
                         "close"; "start"; "check"]);
    ("MODE", words ["night mode"; "vacation mode"; "silent mode"]);
    ("TIME", seq_of [Digits 1 (Some 2); Lit ":"; Digits 2 (Some 2); Lit " ";
                     Group None (words ["AM"; "PM"])]);
    ("TIME_INTERVAL", seq_of [Digits 1 None; Lit " ";
                              Group None (words ["seconds"; "minutes"; "hours"])]);
    ("NUMBER", Digits 1 None);
    ("OPERATOR", words [">"; "<"; ">="; "<="; "=="]);
    ("THEN", words ["then"]);
    ("FROM_TO", words ["from"; "to"]);
    ("DETECTED", words ["detected"]);
    ("AT", words ["at"]);
    ("EVERY", words ["every"]) ].

(** The compiled pattern for a given table: every pattern wrapped in a
    group named after its key, the groups joined by [|]. *)
Definition compile_patterns (patterns : list (string * regex)) : regex :=
  alt_of (map (fun kp => Group (Some (fst kp)) (snd kp)) patterns).

Definition TOKEN_REGEX : regex := compile_patterns TOKEN_PATTERNS.

Definition token : Type := string * string.

(** The body of the loop of [tokenize]: the kind is [match.lastgroup], the
    lexeme [match.group] of that name.  The group closed last is always the
    one named after the key of the pattern that matched: the unnamed groups
    of TIME and TIME_INTERVAL lie inside it and close before it. *)
Definition token_of_match (m : list capture) : token :=
  match lastgroup m with
  | Some token_type =>
      match group m token_type with
      | Some value => (token_type, value)
      | None => (token_type, EmptyString)
      end
  | None => (EmptyString, EmptyString)
  end.

(** The tokenizer over an arbitrary pattern table (compiled with
    re.IGNORECASE). *)
Definition tokenize_with (patterns : list (string * regex)) (command : string)
  : list token :=
  map token_of_match (finditer true (compile_patterns patterns) command).

Definition tokenize (command : string) : list token :=
  tokenize_with TOKEN_PATTERNS command.

(** ** Grammar validation (identical in both files) *)

Definition types_eqb (xs ys : list string) : bool :=
  if list_eq_dec string_dec xs ys then true else false.

Definition match_pattern (tokens : list token) (expected_pattern : list string)
  : bool * string :=
  let extracted_types := map fst tokens in
  (types_eqb extracted_types expected_pattern,
   if types_eqb extracted_types expected_pattern
   then "Valid command." else "Syntax error in command.").

Definition validate_event (tokens : list token) :=
  match_pattern tokens ["EVENT"; "SENSOR"; "DETECTED"; "THEN"; "OPERATION"; "DEVICE"].

Definition validate_schedule (tokens : list token) :=
  match_pattern tokens ["EVENT"; "OPERATION"; "DEVICE"; "AT"; "TIME"].

Definition validate_condition (tokens : list token) :=
  match_pattern tokens
    ["EVENT"; "SENSOR"; "OPERATOR"; "NUMBER"; "THEN"; "OPERATION"; "DEVICE"].

Definition validate_loop (tokens : list token) :=
  match_pattern tokens ["EVENT"; "OPERATION"; "SENSOR"; "EVERY"; "TIME_INTERVAL"].

Definition validate_mode (tokens : list token) :=
  match_pattern tokens ["EVENT"; "MODE"; "FROM_TO"; "TIME"; "FROM_TO"; "TIME"].

Definition validate_syntax (tokens : list token) : bool * string :=
  match tokens with
  | [] => (false, "Empty command.")
  | t0 :: _ =>
      let first_token := lower (snd t0) in
      if (first_token =? "on")%string then validate_event tokens
      else if (first_token =? "schedule")%string then validate_schedule tokens
      else if (first_token =? "if")%string then validate_condition tokens
      else if (first_token =? "repeat")%string then validate_loop tokens
      else if (first_token =? "activate")%string then validate_mode tokens
      else (false, "Invalid command start.")
  end.

(** ** Diagnostics *)

(** The pattern of the time check (compiled without flags). *)
Definition TIME_CHECK : regex :=
  seq_of [Group None (Digits 1 (Some 2)); Lit ":"; Group None (Digits 2 (Some 2));
          Lit " "; Group None (words ["AM"; "PM"])].

(** The time check of [validate_invalid_command]: [re.search] on the raw
    command, then the range test on the groups of the match found. *)
Definition invalid_time (command : string) : bool :=
  match search false TIME_CHECK command with
  | Some time_match =>
      match groups time_match with
      | [hours; minutes; meridiem] =>
          negb ((1 <=? int hours) && (int hours <=? 12))
          || negb ((0 <=? int minutes) && (int minutes <=? 59))
      | _ => false
      end
  | None => false
  end.

Definition is_token (ty value : string) (t : token) : bool :=
  (fst t =? ty)%string && (snd t =? value)%string.

Definition msg_when : string :=
  "'when' is not a valid keyword. Correct syntax: 'on motion detected then turn on lights'.".
Definition msg_missing_value : string :=
  "Missing value after operator. Ensure a numeric condition, e.g., 'if temperature > 30 then turn on AC'.".
Definition msg_then_if : string :=
  "The 'then' keyword is required before 'start AC'.".
Definition msg_open_lights : string :=
  "'open lights' is not a valid action. The correct operation is 'turn on lights'.".
Definition msg_time : string :=
  "Invalid time format. Ensure hours are between 1-12 and minutes between 00-59.".
Definition msg_from_to : string :=
  "The 'from' and 'to' keywords are missing. Correct syntax: 'activate silent mode from 10 PM to 6 AM'.".
Definition msg_then_on : string :=
  "The 'then' keyword is required. Correct syntax: 'on motion detected then turn on lights'.".
Definition msg_every : string :=
  "The 'every' keyword is required. Correct syntax: 'repeat check temperature every 10 minutes'.".
Definition msg_fallback : string :=
  "Error: Invalid command. Ensure your syntax follows the required format.".

Module FlowScriptX.

Definition validate_invalid_command (command : string) (tokens : list token)
  : string :=
  let token_types := map fst tokens in
  if contains "when" command then msg_when
  else if mem "OPERATOR" token_types && negb (mem "NUMBER" token_types)
  then msg_missing_value
  else if contains "if" command && negb (mem "then" (map fst tokens))
  then msg_then_if
  else if existsb (is_token "OPERATION" "open") tokens
          && existsb (is_token "DEVICE" "lights") tokens
  then msg_open_lights
  else if invalid_time command then msg_time
  else if contains "activate" command
          && (negb (contains "from" command) || negb (contains "to" command))
  then msg_from_to
  else if contains "on" command && negb (mem "then" (map fst tokens))
  then msg_then_on
  else if contains "repeat" command && negb (mem "every" (map fst tokens))
  then msg_every
  else msg_fallback.

(** One turn of the main loop: the flag and the message of the table row. *)
Definition main_loop_row (user_input : string) : bool * string :=
  let tokens := tokenize user_input in
  let (valid, message) := validate_syntax tokens in
  if valid then (true, message)
  else (false, validate_invalid_command user_input tokens).

End FlowScriptX.

Module flowscript2.

Definition validate_invalid_command (command : string) (tokens : list token)
  : string :=
  if contains "when" command then msg_when
  else if contains "if" command && negb (mem "then" (map fst tokens))
  then msg_then_if
  else if existsb (is_token "OPERATION" "open") tokens
          && existsb (is_token "DEVICE" "lights") tokens
  then msg_open_lights
  else if invalid_time command then msg_time
  else if contains "activate" command
          && (negb (contains "from" command) || negb (contains "to" command))
  then msg_from_to
  else msg_fallback.

Definition main_loop_row (cmd : string) : bool * string :=
  let tokens := tokenize cmd in
  let (valid, message) := validate_syntax tokens in
  if valid then (true, message)
  else (false, validate_invalid_command cmd tokens).

End flowscript2.

(** ** Words of the specification

    Definitions that follow the specification's wording; the theorems
    below compare them with the program. *)

Fixpoint all_digits (s : string) : bool :=
  match s with
  | EmptyString => true
  | String c s' => is_digit c && all_digits s'
  end.

(** A span of the form H:MM AM/PM: one or two digits, a colon, two digits,
    a space, and AM or PM. *)
Definition time_like (h m mer : string) : bool :=
  all_digits h && (1 <=? String.length h) && (String.length h <=? 2)
  && all_digits m && (String.length m =? 2)
  && ((mer =? "AM")%string || (mer =? "PM")%string).

Definition time_text (h m mer : string) : string :=
  (h ++ ":" ++ m ++ " " ++ mer)%string.

(** Hour outside 1-12 or minute outside 0-59. *)
Definition out_of_range (h m : string) : bool :=
  negb ((1 <=? int h) && (int h <=? 12)) || negb (int m <=? 59).


(** The text starts with a time-like span. *)
Definition starts_with_time (s : string) : Prop :=
  exists h m mer post,
    time_like h m mer = true /\ s = (time_text h m mer ++ post)%string.

(** [h]:[m] is the leftmost time-like span of the raw text: no time-like
    span starts at an earlier position. *)
Definition leftmost_time (command h m : string) : Prop :=
  exists pre mer post,
    command = (pre ++ time_text h m mer ++ post)%string
    /\ time_like h m mer = true
    /\ forall a b, pre = (a ++ b)%string -> b <> EmptyString ->
                   ~ starts_with_time (b ++ time_text h m mer ++ post).

(** A span of the form N seconds|minutes|hours. *)
Definition interval_like (n unit : string) : bool :=
  all_digits n && (1 <=? String.length n)
  && ((unit =? "seconds")%string || (unit =? "minutes")%string
      || (unit =? "hours")%string).

Definition interval_text (n unit : string) : string := (n ++ " " ++ unit)%string.

(** The last character of a text is a digit. *)
Fixpoint ends_with_digit (s : string) : bool :=
  match s with
  | EmptyString => false
  | String c EmptyString => is_digit c
  | String _ s' => ends_with_digit s'
  end.

(** The pattern [r] can match at the start of [s] (under re.IGNORECASE). *)
Definition pattern_matches (r : regex) (s : string) : bool :=
  match match_at true r s with
  | Some _ => true
  | None => false
  end.

(** ** Definitions used in the proofs *)

(** Case folding of a whole text. *)
Fixpoint fold_str (s : string) : string :=
  match s with
  | EmptyString => EmptyString
  | String c s' => String (fold_case c) (fold_str s')
  end.

(** The pattern never matches the empty text. *)
Fixpoint nonnull (r : regex) : bool :=
  match r with
  | Lit s => negb (s =? EmptyString)%string
  | Digits lo _ => 1 <=? lo
  | Seq r1 r2 => nonnull r1 || nonnull r2
  | Alt r1 r2 => nonnull r1 && nonnull r2
  | Group _ r1 => nonnull r1
  end.

(** No group of the pattern has a name. *)
Fixpoint unnamed (r : regex) : bool :=
  match r with
  | Lit _ | Digits _ _ => true
  | Seq r1 r2 | Alt r1 r2 => unnamed r1 && unnamed r2
  | Group name r1 => match name with None => unnamed r1 | Some _ => false end
  end.

(** A pattern table the tokenizer can be built from: not empty, every
    pattern reads at least one character and has no named group inside. *)
Definition table_ok (patterns : list (string * regex)) : bool :=
  negb (Nat.eqb (List.length patterns) 0)
  && forallb (fun kp => nonnull (snd kp) && unnamed (snd kp)) patterns.

(** One step of the tokenizer seen from outside: the first pattern of the
    table that matches at the start of [s], the text it reads and the text
    it leaves. *)
Fixpoint next_token (patterns : list (string * regex)) (s : string)
  : option (token * string) :=
  match patterns with
  | [] => None
  | kp :: patterns' =>
      match rmatch true (snd kp) s with
      | (_, t, rest) :: _ => Some ((fst kp, t), rest)
      | [] => next_token patterns' s
      end
  end.

(** The tokens of [s] when [busy] characters are still to be passed. *)
Definition tokens_from (patterns : list (string * regex)) (busy : nat) (s : string)
  : list token :=
  map token_of_match (finditer_from true (compile_patterns patterns) busy s).

(** Extending the text left by a match. *)
Definition extend (rest : string) (m : rmatch_result) : rmatch_result :=
  let '(c, t, s1) := m in (c, t, (s1 ++ rest)%string).

(** No character of the text is [c] (up to case when [ic]). *)
Fixpoint text_avoids (ic : bool) (c : ascii) (s : string) : bool :=
  match s with
  | EmptyString => true
  | String a s' => negb (chr_eqb ic a c) && text_avoids ic c s'
  end.

(** The pattern cannot read the character [c] at all. *)
Fixpoint avoids (ic : bool) (c : ascii) (r : regex) : bool :=
  match r with
  | Lit s => text_avoids ic c s
  | Digits _ _ => negb (is_digit c)
  | Seq r1 r2 | Alt r1 r2 => avoids ic c r1 && avoids ic c r2
  | Group _ r1 => avoids ic c r1
  end.

(** The pattern cannot read the character [c] after its first character. *)
Fixpoint avoids_tail (ic : bool) (c : ascii) (r : regex) : bool :=
  match r with
  | Lit s => match s with
             | EmptyString => true
             | String _ s' => text_avoids ic c s'
             end
  | Digits _ _ => negb (is_digit c)
  | Seq r1 r2 => avoids_tail ic c r1 && avoids ic c r2
  | Alt r1 r2 => avoids_tail ic c r1 && avoids_tail ic c r2
  | Group _ r1 => avoids_tail ic c r1
  end.

(** No character of the text is a digit. *)
Fixpoint text_digit_free (s : string) : bool :=
  match s with
  | EmptyString => true
  | String a s' => negb (is_digit a) && text_digit_free s'
  end.

(** The pattern reads no digit. *)
Fixpoint digit_free (r : regex) : bool :=
  match r with
  | Lit s => text_digit_free s
  | Digits _ _ => false
  | Seq r1 r2 | Alt r1 r2 => digit_free r1 && digit_free r2
  | Group _ r1 => digit_free r1
  end.

(** Matching [r] on [p ++ rest] never looks past [p]. *)
Definition local (ic : bool) (r : regex) (p rest : string) : Prop :=
  rmatch ic r (p ++ rest) = map (extend rest) (rmatch ic r p).

(** Case folding of the texts of a match. *)
Definition fold_capture (c : capture) : capture := (fst c, fold_str (snd c)).

Definition fold_result (m : rmatch_result) : rmatch_result :=
  let '(c, t, rest) := m in (map fold_capture c, fold_str t, fold_str rest).

Definition fold_token (t : token) : token := (fst t, fold_str (snd t)).

(** What the TIME pattern reads after the colon. *)
Definition minutes_tail : regex :=
  Seq (Digits 2 (Some 2)) (Seq (Lit " ") (Group None (Alt (Lit "AM") (Lit "PM")))).

(** The literal [w] can be read at the start of [s], up to case. *)
Definition ci_prefix (w s : string) : bool :=
  match lit_split true w s with
  | Some _ => true
  | None => false
  end.

(** One of two words is a prefix of the other, up to case. *)
Definition clash (w1 w2 : string) : bool := ci_prefix w1 w2 || ci_prefix w2 w1.

Definition words_clash (ws1 ws2 : list string) : bool :=
  existsb (fun w1 => existsb (clash w1) ws2) ws1.

(** The words of a pattern that is an alternation of literals. *)
Fixpoint literals (r : regex) : option (list string) :=
  match r with
  | Lit w => Some [w]
  | Alt r1 r2 =>
      match literals r1, literals r2 with
      | Some a, Some b => Some (a ++ b)
      | _, _ => None
      end
  | Group _ r1 => literals r1
  | Digits _ _ | Seq _ _ => None
  end.

(** The pattern reads a digit first. *)
Fixpoint digit_led (r : regex) : bool :=
  match r with
  | Lit _ => false
  | Digits lo _ => 1 <=? lo
  | Seq r1 _ => digit_led r1
  | Alt r1 r2 => digit_led r1 && digit_led r2
  | Group _ r1 => digit_led r1
  end.

Definition digit_word (w : string) : bool :=
  match w with
  | EmptyString => true
  | String a _ => is_digit a
  end.

(** A test that two patterns may match at the same place; [false] means
    that they never do. *)
Definition overlap_possible (r1 r2 : regex) : bool :=
  match literals r1, literals r2 with
  | Some ws1, Some ws2 => words_clash ws1 ws2
  | Some ws, None => if digit_led r2 then existsb digit_word ws else true
  | None, Some ws => if digit_led r1 then existsb digit_word ws else true
  | None, None => true
  end.

(** The pairs of kinds whose patterns can match at the same place. *)
Definition known_overlap (k1 k2 : string) : bool :=
  existsb (fun p => ((k1 =? fst p) && (k2 =? snd p) || (k1 =? snd p) && (k2 =? fst p))%string)
    [("SENSOR", "DEVICE"); ("EVENT", "DEVICE"); ("TIME", "NUMBER");
     ("TIME_INTERVAL", "NUMBER")].

Definition time_pair (k1 k2 : string) : bool :=
  ((k1 =? "TIME") && (k2 =? "TIME_INTERVAL")
   || (k1 =? "TIME_INTERVAL") && (k2 =? "TIME"))%string.

Definition pair_ok (kp1 kp2 : string * regex) : bool :=
  (fst kp1 =? fst kp2)%string || known_overlap (fst kp1) (fst kp2)
  || time_pair (fst kp1) (fst kp2) || negb (overlap_possible (snd kp1) (snd kp2)).

(** The table with the patterns of two kinds exchanged. *)
Definition swap_kinds (k1 k2 : string) (patterns : list (string * regex))
  : list (string * regex) :=
  let get k := find (fun kp => (fst kp =? k)%string) patterns in
  map (fun kp =>
         if (fst kp =? k1)%string then match get k2 with Some x => x | None => kp end
         else if (fst kp =? k2)%string then match get k1 with Some x => x | None => kp end
         else kp)
      patterns.

(** The entries of a table whose kind is one of [kinds]. *)
Definition of_kinds (kinds : list string) (patterns : list (string * regex))
  : list (string * regex) :=
  filter (fun kp => mem (fst kp) kinds) patterns.

(** The two families of kinds inside which patterns overlap. *)
Definition word_family : list string := ["EVENT"; "SENSOR"; "DEVICE"].
Definition digit_family : list string := ["TIME"; "TIME_INTERVAL"; "NUMBER"].

(** The entry of the table that [next_token] picks. *)
Definition winner (patterns : list (string * regex)) (s : string)
  : option (string * regex) :=
  hd_error (filter (fun kp => pattern_matches (snd kp) s) patterns).

(** The pattern declared for a kind. *)
Definition pattern_of (k : string) : regex :=
  match find (fun kp => (fst kp =? k)%string) TOKEN_PATTERNS with
  | Some kp => snd kp
  | None => Lit EmptyString
  end.

(** ** The main loops

    [textwrap.fill] and [repr] belong to the Python library, and the rows
    go to a PrettyTable; the loops are modelled over any [fill] and [repr],
    a table being the list of the rows added to it.  The prompt for the
    number of commands is left out: the loop of [FlowScriptX.py] is modelled
    on the list of the commands typed in. *)

Section Presentation.

Variable fill : string -> nat -> string.
Variable repr : string -> string.

Definition wrap_text (text : string) (width : nat) : string := fill text width.

(** [", ".join([f"({repr(t[0])}, {repr(t[1])})" for t in tokens])] *)
Definition formatted_tokens (tokens : list token) : string :=
  String.concat ", "
    (map (fun t => ("(" ++ repr (fst t) ++ ", " ++ repr (snd t) ++ ")")%string) tokens).

Record tables : Type := {
  valid_table : list (list string);
  invalid_table : list (list string)
}.

(** One turn of the loop of [FlowScriptX.py]. *)
Definition FlowScriptX_turn (tabs : tables) (user_input : string) : tables :=
  let tokens := tokenize user_input in
  let wrapped_tokens := wrap_text (formatted_tokens tokens) 50 in
  let (valid, message) := validate_syntax tokens in
  if valid
  then {| valid_table := valid_table tabs
                         ++ [[wrap_text user_input 25; wrapped_tokens;
                              wrap_text message 40]];
          invalid_table := invalid_table tabs |}
  else
    let error_message := FlowScriptX.validate_invalid_command user_input tokens in
    {| valid_table := valid_table tabs;
       invalid_table := invalid_table tabs
                        ++ [[wrap_text user_input 25; wrapped_tokens;
                             wrap_text error_message 50]] |}.

Definition FlowScriptX_loop (inputs : list string) : tables :=
  fold_left FlowScriptX_turn inputs {| valid_table := []; invalid_table := [] |}.

(** The test commands of [flowscript2.py]. *)
Definition commands : list string :=
  [ "on motion detected then turn on lights";
    "schedule turn on watering at 6:00 AM";
    "if temperature > 30 then turn on AC";
    "repeat check temperature every 10 minutes";
    "activate night mode from 10:00 PM to 6:00 AM";
    "repeat close door every 30 minutes";
    "when motion detected turn on lights";
    "if temperature > 30 start AC";
    "on humidity triggered then open lights";
    "schedule cooling at 14:99 PM";
    "activate silent mode 10 PM 6 AM";
    "on";
    "lights" ].

(** One turn of the loop of [flowscript2.py]: the row goes to the list
    [valid_commands] or [invalid_commands]. *)
Definition flowscript2_turn (lists : tables) (cmd : string) : tables :=
  let tokens := tokenize cmd in
  let formatted := formatted_tokens tokens in
  let wrapped_tokens := wrap_text formatted 50 in
  let (valid, message) := validate_syntax tokens in
  if valid
  then {| valid_table := valid_table lists
                         ++ [[wrap_text cmd 25; wrapped_tokens; wrap_text message 40]];
          invalid_table := invalid_table lists |}
  else
    let error_message := flowscript2.validate_invalid_command cmd tokens in
    {| valid_table := valid_table lists;
       invalid_table := invalid_table lists
                        ++ [[wrap_text cmd 25; wrapped_tokens;
                             wrap_text error_message 50]] |}.

(** The whole of [flowscript2.py]: the loop over [commands], then the rows
    of the two lists added to the two tables in their order. *)
Definition flowscript2_run : tables :=
  let lists := fold_left flowscript2_turn commands
                 {| valid_table := []; invalid_table := [] |} in
  {| valid_table := fold_left (fun t row => t ++ [row]) (valid_table lists) [];
     invalid_table := fold_left (fun t row => t ++ [row]) (invalid_table lists) [] |}.

End Presentation.

(** ** Further notions used in the statements *)

(** The texts [ls] occur in [s] from left to right, one after the other,
    without overlap. *)
Inductive embeds : list string -> string -> Prop :=
| embeds_nil : forall s, embeds [] s
| embeds_skip : forall ls c s, embeds ls s -> embeds ls (String c s)
| embeds_take : forall l ls s, embeds ls s -> embeds (l :: ls) (l ++ s).

(** The five shapes: the first word that [validate_syntax] tests, and the
    kinds that the validation function called for it expects. *)
Definition shapes : list (string * list string) :=
  [ ("on", ["EVENT"; "SENSOR"; "DETECTED"; "THEN"; "OPERATION"; "DEVICE"]);
    ("schedule", ["EVENT"; "OPERATION"; "DEVICE"; "AT"; "TIME"]);
    ("if", ["EVENT"; "SENSOR"; "OPERATOR"; "NUMBER"; "THEN"; "OPERATION"; "DEVICE"]);
    ("repeat", ["EVENT"; "OPERATION"; "SENSOR"; "EVERY"; "TIME_INTERVAL"]);
    ("activate", ["EVENT"; "MODE"; "FROM_TO"; "TIME"; "FROM_TO"; "TIME"]) ].

(** A letter of the ASCII alphabet. *)
Definition is_letter (c : ascii) : bool :=
  let n := nat_of_ascii c in
  ((65 <=? n) && (n <=? 90)) || ((97 <=? n) && (n <=? 122)).

(** A character that is no letter, no digit, and none of space, colon,
    [<], [>], [=]: no pattern of the table reads it. *)
Definition separator (c : ascii) : bool :=
  negb (is_letter c) && negb (is_digit c)
  && negb (existsb (Ascii.eqb c) [" "; ":"; "<"; ">"; "="]%char).

Fixpoint total_length (ls : list string) : nat :=
  match ls with
  | [] => 0
  | l :: ls' => String.length l + total_length ls'
  end.

(** The text after its first [n] characters. *)
Fixpoint drop (n : nat) (s : string) : string :=
  match n with
  | 0 => s
  | S n' => match s with
            | EmptyString => EmptyString
            | String _ s' => drop n' s'
            end
  end.

(** Every character of the text is below code point 128. *)
Fixpoint all_ascii (s : string) : bool :=
  match s with
  | EmptyString => true
  | String c s' => (nat_of_ascii c <? 128) && all_ascii s'
  end.

(** The messages of the diagnostic chain of [FlowScriptX.py]. *)
Definition FlowScriptX_messages : list string :=
  [msg_when; msg_missing_value; msg_then_if; msg_open_lights; msg_time;
   msg_from_to; msg_then_on; msg_every; msg_fallback].

(** The messages of the diagnostic chain of [flowscript2.py]. *)
Definition flowscript2_messages : list string :=
  [msg_when; msg_then_if; msg_open_lights; msg_time; msg_from_to; msg_fallback].

(** The messages [validate_syntax] gives to an invalid command. *)
Definition syntax_failure_messages : list string :=
  ["Empty command."; "Invalid command start."; "Syntax error in command."].

(** * Lemmas on the matcher *)

Lemma append_nil_r (s : string) : (s ++ EmptyString)%string = s.
Proof. induction s; simpl; congruence. Qed.

Lemma append_assoc (a b c : string) :
  ((a ++ b) ++ c)%string = (a ++ (b ++ c))%string.
Proof. induction a; simpl; congruence. Qed.

Lemma length_append (a b : string) :
  String.length (a ++ b) = String.length a + String.length b.
Proof. induction a; simpl; congruence. Qed.

Lemma lit_split_app ic lit : forall s t rest,
  lit_split ic lit s = Some (t, rest) ->
  s = (t ++ rest)%string /\ String.length t = String.length lit.
Proof.
  induction lit as [|a lit IH]; intros s t rest H; simpl in H.
  - inversion H; subst. split; reflexivity.
  - destruct s as [|b s]; [discriminate|].
    destruct (chr_eqb ic a b); [|discriminate].
    destruct (lit_split ic lit s) as [[t' rest']|] eqn:E; [|discriminate].
    inversion H; subst. destruct (IH _ _ _ E) as [-> Hl].
    split; simpl; congruence.
Qed.

Lemma digit_splits_app lo hi : forall s n t rest,
  In (t, rest) (digit_splits lo hi n s) ->
  s = (t ++ rest)%string /\ all_digits t = true /\ lo <= n + String.length t.
Proof.
  induction s as [|c s IH]; intros n t rest H; simpl in H.
  - destruct (lo <=? n) eqn:E; simpl in H; [|contradiction].
    destruct H as [H|[]]. inversion H; subst. apply Nat.leb_le in E.
    simpl. repeat split; lia.
  - assert (Hhere : In (t, rest) (if lo <=? n then [(EmptyString, String c s)] else []) ->
                    String c s = (t ++ rest)%string /\ all_digits t = true
                    /\ lo <= n + String.length t).
    { destruct (lo <=? n) eqn:E; simpl; [|contradiction].
      intros [H'|[]]. inversion H'; subst. apply Nat.leb_le in E.
      simpl. repeat split; lia. }
    destruct (is_digit c && below hi n) eqn:D; [|auto].
    apply in_app_or in H. destruct H as [H|H]; [|auto].
    apply in_map_iff in H. destruct H as [[t' rest'] [Heq Hin]].
    inversion Heq; subst. simpl in *.
    destruct (IH _ _ _ Hin) as [-> [Hd Hl]].
    apply andb_prop in D. destruct D as [D _].
    rewrite D, Hd. repeat split. lia.
Qed.

Lemma rmatch_app ic r : forall s c t rest,
  In (c, t, rest) (rmatch ic r s) -> s = (t ++ rest)%string.
Proof.
  induction r as [lit|lo hi|r1 IH1 r2 IH2|r1 IH1 r2 IH2|name r1 IH1];
    intros s c t rest H; simpl in H.
  - destruct (lit_split ic lit s) as [[t' rest']|] eqn:E; simpl in H; [|contradiction].
    destruct H as [H|[]]. inversion H; subst.
    apply (lit_split_app _ _ _ _ _ E).
  - apply in_map_iff in H. destruct H as [[t' rest'] [Heq Hin]].
    inversion Heq; subst. apply (digit_splits_app _ _ _ _ _ _ Hin).
  - apply in_flat_map in H. destruct H as [[[c1 t1] s1] [H1 H2]].
    apply in_map_iff in H2. destruct H2 as [[[c2 t2] s2] [Heq H2]].
    inversion Heq; subst.
    rewrite (IH1 _ _ _ _ H1), (IH2 _ _ _ _ H2). symmetry. apply append_assoc.
  - apply in_app_or in H. destruct H as [H|H]; eauto.
  - apply in_map_iff in H. destruct H as [[[c1 t1] s1] [Heq H1]].
    inversion Heq; subst. eauto.
Qed.

Lemma rmatch_nonnull ic r : nonnull r = true -> forall s c t rest,
  In (c, t, rest) (rmatch ic r s) -> t <> EmptyString.
Proof.
  induction r as [lit|lo hi|r1 IH1 r2 IH2|r1 IH1 r2 IH2|name r1 IH1];
    intros Hn s c t rest H; simpl in H, Hn.
  - destruct (lit_split ic lit s) as [[t' rest']|] eqn:E; simpl in H; [|contradiction].
    destruct H as [H|[]]. inversion H; subst.
    destruct (lit_split_app _ _ _ _ _ E) as [_ Hl].
    destruct lit; [discriminate|]. destruct t; [discriminate|discriminate].
  - apply in_map_iff in H. destruct H as [[t' rest'] [Heq Hin]].
    inversion Heq; subst.
    destruct (digit_splits_app _ _ _ _ _ _ Hin) as [_ [_ Hl]].
    destruct lo; [discriminate|]. destruct t; simpl in *; [lia|discriminate].
  - apply in_flat_map in H. destruct H as [[[c1 t1] s1] [H1 H2]].
    apply in_map_iff in H2. destruct H2 as [[[c2 t2] s2] [Heq H2]].
    inversion Heq; subst.
    apply orb_prop in Hn. destruct Hn as [Hn|Hn].
    + specialize (IH1 Hn _ _ _ _ H1). destruct t1; [congruence|discriminate].
    + specialize (IH2 Hn _ _ _ _ H2). destruct t1; simpl; [assumption|discriminate].
  - apply andb_prop in Hn. destruct Hn as [Hn1 Hn2].
    apply in_app_or in H. destruct H as [H|H]; eauto.
  - apply in_map_iff in H. destruct H as [[[c1 t1] s1] [Heq H1]].
    inversion Heq; subst. eauto.
Qed.

Lemma rmatch_unnamed ic r : unnamed r = true -> forall s c t rest,
  In (c, t, rest) (rmatch ic r s) -> forallb (fun cap : capture =>
     match fst cap with None => true | Some _ => false end) c = true.
Proof.
  induction r as [lit|lo hi|r1 IH1 r2 IH2|r1 IH1 r2 IH2|name r1 IH1];
    intros Hn s c t rest H; simpl in H, Hn.
  - destruct (lit_split ic lit s) as [[t' rest']|] eqn:E; simpl in H; [|contradiction].
    destruct H as [H|[]]. inversion H; subst. reflexivity.
  - apply in_map_iff in H. destruct H as [[t' rest'] [Heq Hin]].
    inversion Heq; subst. reflexivity.
  - apply andb_prop in Hn. destruct Hn as [Hn1 Hn2].
    apply in_flat_map in H. destruct H as [[[c1 t1] s1] [H1 H2]].
    apply in_map_iff in H2. destruct H2 as [[[c2 t2] s2] [Heq H2]].
    inversion Heq; subst. rewrite forallb_app.
    rewrite (IH1 Hn1 _ _ _ _ H1), (IH2 Hn2 _ _ _ _ H2). reflexivity.
  - apply andb_prop in Hn. destruct Hn as [Hn1 Hn2].
    apply in_app_or in H. destruct H as [H|H]; eauto.
  - destruct name; [discriminate|].
    apply in_map_iff in H. destruct H as [[[c1 t1] s1] [Heq H1]].
    inversion Heq; subst. rewrite forallb_app.
    rewrite (IH1 Hn _ _ _ _ H1). reflexivity.
Qed.

(** * One step of the tokenizer *)

Lemma rmatch_compile ic (patterns : list (string * regex)) s :
  patterns <> [] ->
  rmatch ic (compile_patterns patterns) s =
  flat_map (fun kp =>
              map (fun m : rmatch_result =>
                     let '(c, t, rest) := m in (c ++ [(Some (fst kp), t)], t, rest))
                  (rmatch ic (snd kp) s))
           patterns.
Proof.
  unfold compile_patterns.
  induction patterns as [|kp ps IH]; intro Hne; [congruence|].
  destruct ps as [|kp' ps].
  - simpl. rewrite app_nil_r. reflexivity.
  - change (alt_of (map (fun kp0 => Group (Some (fst kp0)) (snd kp0)) (kp :: kp' :: ps)))
      with (Alt (Group (Some (fst kp)) (snd kp))
                (alt_of (map (fun kp0 => Group (Some (fst kp0)) (snd kp0)) (kp' :: ps)))).
    cbn [rmatch flat_map]. rewrite IH by discriminate. reflexivity.
Qed.

Lemma lastgroup_snoc (c : list capture) name t :
  lastgroup (c ++ [(name, t)]) = name.
Proof. unfold lastgroup. rewrite rev_app_distr. reflexivity. Qed.

Lemma group_snoc_unnamed (c : list capture) k t :
  forallb (fun cap : capture =>
             match fst cap with None => true | Some _ => false end) c = true ->
  group (c ++ [(Some k, t)]) k = Some t.
Proof.
  induction c as [|[[n|] x] c IH]; simpl; intro H.
  - rewrite String.eqb_refl. reflexivity.
  - discriminate.
  - auto.
Qed.

Lemma token_of_match_snoc (c : list capture) k t :
  forallb (fun cap : capture =>
             match fst cap with None => true | Some _ => false end) c = true ->
  token_of_match (c ++ [(Some k, t)]) = (k, t).
Proof.
  intro H. unfold token_of_match.
  rewrite lastgroup_snoc, (group_snoc_unnamed _ _ _ H). reflexivity.
Qed.

Lemma table_ok_cons kp ps :
  table_ok (kp :: ps) = true ->
  nonnull (snd kp) = true /\ unnamed (snd kp) = true
  /\ forallb (fun kp => nonnull (snd kp) && unnamed (snd kp)) ps = true.
Proof.
  unfold table_ok. simpl. intro H.
  apply andb_prop in H. destruct H as [H1 H2].
  apply andb_prop in H1. tauto.
Qed.

Lemma next_token_sound ps : forall s k t rest,
  forallb (fun kp => nonnull (snd kp) && unnamed (snd kp)) ps = true ->
  next_token ps s = Some ((k, t), rest) ->
  s = (t ++ rest)%string /\ t <> EmptyString.
Proof.
  induction ps as [|kp ps IH]; intros s k t rest Hok H; simpl in H; [discriminate|].
  simpl in Hok. apply andb_prop in Hok. destruct Hok as [Hkp Hok].
  apply andb_prop in Hkp. destruct Hkp as [Hnn _].
  destruct (rmatch true (snd kp) s) as [|[[c0 t0] rest0] l] eqn:E.
  - eauto.
  - inversion H; subst.
    assert (Hin : In (c0, t, rest) (rmatch true (snd kp) s)) by (rewrite E; left; reflexivity).
    split; [apply (rmatch_app _ _ _ _ _ _ Hin)|apply (rmatch_nonnull _ _ Hnn _ _ _ _ Hin)].
Qed.

Lemma match_at_compile ps s :
  table_ok ps = true ->
  match next_token ps s with
  | Some (kt, rest) =>
      exists caps, match_at true (compile_patterns ps) s = Some (caps, snd kt, rest)
                   /\ token_of_match caps = kt
  | None => match_at true (compile_patterns ps) s = None
  end.
Proof.
  intro Hok. unfold match_at.
  rewrite rmatch_compile by (intro E; subst; discriminate).
  assert (Hall : forallb (fun kp => nonnull (snd kp) && unnamed (snd kp)) ps = true).
  { unfold table_ok in Hok. apply andb_prop in Hok. tauto. }
  clear Hok. induction ps as [|kp ps IH]; simpl; [reflexivity|].
  simpl in Hall. apply andb_prop in Hall. destruct Hall as [Hkp Hall].
  apply andb_prop in Hkp. destruct Hkp as [_ Hun].
  destruct (rmatch true (snd kp) s) as [|[[c0 t0] rest0] l] eqn:E.
  - simpl. apply IH, Hall.
  - simpl. exists (c0 ++ [(Some (fst kp), t0)]). split; [reflexivity|].
    apply token_of_match_snoc.
    apply (rmatch_unnamed true _ Hun s c0 t0 rest0). rewrite E. left. reflexivity.
Qed.

Lemma finditer_from_busy ic r t : forall s,
  finditer_from ic r (String.length t) (t ++ s) = finditer_from ic r 0 s.
Proof. induction t as [|c t IH]; intro s; simpl; auto. Qed.

Lemma tokens_from_emit ps s k t rest :
  table_ok ps = true ->
  next_token ps s = Some ((k, t), rest) ->
  tokens_from ps 0 s = (k, t) :: tokens_from ps 0 rest.
Proof.
  intros Hok H.
  pose proof (match_at_compile ps s Hok) as M. rewrite H in M.
  destruct M as [caps [M1 M2]]. simpl in M1.
  assert (Hall : forallb (fun kp => nonnull (snd kp) && unnamed (snd kp)) ps = true).
  { unfold table_ok in Hok. apply andb_prop in Hok. tauto. }
  destruct (next_token_sound _ _ _ _ _ Hall H) as [-> Hne].
  destruct t as [|c t]; [congruence|].
  unfold tokens_from. simpl append. cbn [finditer_from].
  simpl in M1. rewrite M1. cbn [map]. rewrite M2. f_equal.
  replace (String.length (String c t) - 1) with (String.length t)
    by (simpl; lia).
  rewrite finditer_from_busy. reflexivity.
Qed.

Lemma tokens_from_skip ps c s :
  table_ok ps = true ->
  next_token ps (String c s) = None ->
  tokens_from ps 0 (String c s) = tokens_from ps 0 s.
Proof.
  intros Hok H.
  pose proof (match_at_compile ps (String c s) Hok) as M. rewrite H in M.
  unfold tokens_from. cbn [finditer_from]. rewrite M. reflexivity.
Qed.

Lemma next_token_nil ps :
  forallb (fun kp => nonnull (snd kp) && unnamed (snd kp)) ps = true ->
  next_token ps EmptyString = None.
Proof.
  intro Hall. destruct (next_token ps EmptyString) as [[[k t] rest]|] eqn:E; [|reflexivity].
  destruct (next_token_sound _ _ _ _ _ Hall E) as [H1 H2].
  destruct t; [congruence|discriminate].
Qed.

Lemma tokens_from_nil ps b :
  table_ok ps = true -> tokens_from ps b EmptyString = [].
Proof.
  intro Hok. destruct b; [|reflexivity].
  pose proof (match_at_compile ps EmptyString Hok) as M.
  rewrite next_token_nil in M by (unfold table_ok in Hok; apply andb_prop in Hok; tauto).
  unfold tokens_from. cbn [finditer_from]. rewrite M. reflexivity.
Qed.

Lemma tokens_from_busy ps t s :
  tokens_from ps (String.length t) (t ++ s) = tokens_from ps 0 s.
Proof. unfold tokens_from. rewrite finditer_from_busy. reflexivity. Qed.

Lemma TOKEN_PATTERNS_ok : table_ok TOKEN_PATTERNS = true.
Proof. reflexivity. Qed.

(** * Matches that stay inside a prefix of the text *)

Lemma lit_split_avoids ic c x lit :
  text_avoids ic c lit = true ->
  forall p,
    lit_split ic lit (p ++ String c x) =
    option_map (fun m => (fst m, (snd m ++ String c x)%string)) (lit_split ic lit p).
Proof.
  induction lit as [|a lit IH]; intros Hav p; simpl.
  - reflexivity.
  - simpl in Hav. apply andb_prop in Hav. destruct Hav as [Ha Hav].
    destruct p as [|b p]; simpl.
    + apply negb_true_iff in Ha. rewrite Ha. reflexivity.
    + destruct (chr_eqb ic a b); [|reflexivity].
      rewrite (IH Hav p). destruct (lit_split ic lit p) as [[t r]|]; reflexivity.
Qed.

Lemma digit_splits_barrier lo hi c x :
  is_digit c = false ->
  forall p n,
    digit_splits lo hi n (p ++ String c x) =
    map (fun m => (fst m, (snd m ++ String c x)%string)) (digit_splits lo hi n p).
Proof.
  intros Hc. induction p as [|b p IH]; intro n; simpl.
  - rewrite Hc. simpl. destruct (lo <=? n); reflexivity.
  - destruct (is_digit b && below hi n).
    + rewrite IH, map_app, !map_map. f_equal.
      destruct (lo <=? n); reflexivity.
    + destruct (lo <=? n); reflexivity.
Qed.

Lemma flat_map_map {A B C} (f : B -> list C) (g : A -> B) (l : list A) :
  flat_map f (map g l) = flat_map (fun x => f (g x)) l.
Proof. induction l; simpl; congruence. Qed.

Lemma map_flat_map {A B C} (f : A -> list B) (g : B -> C) (l : list A) :
  map g (flat_map f l) = flat_map (fun x => map g (f x)) l.
Proof. induction l; simpl; [reflexivity|]. rewrite map_app. congruence. Qed.

Lemma flat_map_ext_in {A B} (f g : A -> list B) (l : list A) :
  (forall x, In x l -> f x = g x) -> flat_map f l = flat_map g l.
Proof.
  induction l as [|a l IH]; simpl; intro H; [reflexivity|].
  rewrite (H a) by (left; reflexivity). f_equal. apply IH. intros; apply H; right; assumption.
Qed.

(** A sequence is local when its head is and its tail is local on every
    text its head leaves. *)
Lemma local_seq ic r1 r2 p rest :
  local ic r1 p rest ->
  (forall c1 t1 s1, In (c1, t1, s1) (rmatch ic r1 p) -> local ic r2 s1 rest) ->
  local ic (Seq r1 r2) p rest.
Proof.
  unfold local. intros H1 H2. cbn [rmatch].
  rewrite H1, flat_map_map, map_flat_map.
  apply flat_map_ext_in. intros [[c1 t1] s1] Hin. cbn [extend].
  rewrite (H2 _ _ _ Hin), !map_map. apply map_ext.
  intros [[c2 t2] s2]. reflexivity.
Qed.

Lemma local_alt ic r1 r2 p rest :
  local ic r1 p rest -> local ic r2 p rest -> local ic (Alt r1 r2) p rest.
Proof. unfold local. intros H1 H2. cbn [rmatch]. rewrite H1, H2, map_app. reflexivity. Qed.

Lemma local_group ic name r p rest :
  local ic r p rest -> local ic (Group name r) p rest.
Proof.
  unfold local. intros H. cbn [rmatch]. rewrite H, !map_map.
  apply map_ext. intros [[c t] s]. reflexivity.
Qed.

Lemma local_lit_avoids ic lit c x p :
  text_avoids ic c lit = true -> local ic (Lit lit) p (String c x).
Proof.
  intro H. unfold local. cbn [rmatch]. rewrite (lit_split_avoids _ _ _ _ H).
  destruct (lit_split ic lit p) as [[t r]|]; reflexivity.
Qed.

Lemma local_digits_barrier ic lo hi c x p :
  is_digit c = false -> local ic (Digits lo hi) p (String c x).
Proof.
  intro H. unfold local. cbn [rmatch]. rewrite (digit_splits_barrier _ _ _ _ H), !map_map.
  reflexivity.
Qed.

Lemma rmatch_avoids ic c x r :
  avoids ic c r = true -> forall p, local ic r p (String c x).
Proof.
  induction r as [lit|lo hi|r1 IH1 r2 IH2|r1 IH1 r2 IH2|name r1 IH1];
    simpl; intros Hav p.
  - apply local_lit_avoids, Hav.
  - apply local_digits_barrier. apply negb_true_iff, Hav.
  - apply andb_prop in Hav. destruct Hav. apply local_seq; auto.
  - apply andb_prop in Hav. destruct Hav. apply local_alt; auto.
  - apply local_group; auto.
Qed.

Lemma rmatch_avoids_tail ic c x r :
  avoids_tail ic c r = true ->
  forall p, p <> EmptyString -> local ic r p (String c x).
Proof.
  induction r as [lit|lo hi|r1 IH1 r2 IH2|r1 IH1 r2 IH2|name r1 IH1];
    simpl; intros Hav p Hp.
  - destruct lit as [|a lit]; [reflexivity|].
    destruct p as [|b p]; [congruence|].
    unfold local. cbn [rmatch]. simpl.
    destruct (chr_eqb ic a b); [|reflexivity].
    rewrite (lit_split_avoids _ _ _ _ Hav).
    destruct (lit_split ic lit p) as [[t r]|]; reflexivity.
  - apply local_digits_barrier. apply negb_true_iff, Hav.
  - apply andb_prop in Hav. destruct Hav as [Ha Hb]. apply local_seq; auto.
    intros. apply rmatch_avoids, Hb.
  - apply andb_prop in Hav. destruct Hav. apply local_alt; auto.
  - apply local_group; auto.
Qed.

Lemma hd_error_map {A B} (f : A -> B) (l : list A) :
  hd_error (map f l) = option_map f (hd_error l).
Proof. destruct l; reflexivity. Qed.

(** The scan of [pre ++ rest] is the scan of [pre] followed by the scan of
    [rest], when no match that starts inside [pre] looks past it. *)
Lemma finditer_from_app ic r rest :
  match_at ic r EmptyString = None ->
  forall pre,
    (forall a p, pre = (a ++ p)%string -> p <> EmptyString -> local ic r p rest) ->
    forall b,
      finditer_from ic r b (pre ++ rest) =
      finditer_from ic r b pre ++ finditer_from ic r (b - String.length pre) rest.
Proof.
  intros Hnil. induction pre as [|c pre IH]; intros Hloc b.
  - simpl. rewrite Nat.sub_0_r. destruct b; simpl; [|reflexivity].
    rewrite Hnil. reflexivity.
  - assert (Hloc' : forall a p, pre = (a ++ p)%string -> p <> EmptyString ->
                                local ic r p rest).
    { intros a p -> Hp. apply (Hloc (String c a)); [reflexivity|assumption]. }
    specialize (IH Hloc').
    destruct b as [|b].
    + pose proof (Hloc EmptyString (String c pre) eq_refl) as L.
      unfold local in L. simpl append in L.
      simpl append. cbn [finditer_from]. unfold match_at.
      rewrite L by discriminate. rewrite hd_error_map.
      destruct (hd_error (rmatch ic r (String c pre))) as [[[caps t] s1]|] eqn:E.
      * simpl option_map. cbn [extend]. rewrite IH.
        assert (Hin : In (caps, t, s1) (rmatch ic r (String c pre))).
        { destruct (rmatch ic r (String c pre)); [discriminate|].
          inversion E; subst. left; reflexivity. }
        apply rmatch_app in Hin.
        assert (Hlen : String.length t - 1 - String.length pre = 0).
        { apply (f_equal String.length) in Hin. rewrite length_append in Hin.
          simpl in Hin. lia. }
        rewrite Hlen. reflexivity.
      * simpl option_map. rewrite IH. reflexivity.
    + simpl. apply IH.
Qed.

Lemma tokens_from_app ps rest pre :
  table_ok ps = true ->
  (forall a p, pre = (a ++ p)%string -> p <> EmptyString ->
               local true (compile_patterns ps) p rest) ->
  tokens_from ps 0 (pre ++ rest) = tokens_from ps 0 pre ++ tokens_from ps 0 rest.
Proof.
  intros Hok Hloc. unfold tokens_from.
  rewrite finditer_from_app; auto.
  - rewrite map_app. reflexivity.
  - pose proof (match_at_compile ps EmptyString Hok) as M.
    rewrite next_token_nil in M; [assumption|].
    unfold table_ok in Hok. apply andb_prop in Hok. tauto.
Qed.

(** * Characters *)

Lemma fold_case_eq_nonletter (a c : ascii) :
  is_upper a = false ->
  (97 <=? nat_of_ascii a) && (nat_of_ascii a <=? 122) = false ->
  Ascii.eqb (fold_case a) (fold_case c) = Ascii.eqb a c.
Proof.
  intros Hu Hl. unfold fold_case at 1. rewrite Hu.
  destruct (Ascii.eqb_spec a c) as [->|Hne].
  - unfold fold_case. rewrite Hu. apply Ascii.eqb_refl.
  - apply Ascii.eqb_neq. intro E. unfold fold_case in E.
    destruct (is_upper c) eqn:Uc; [|congruence].
    subst a. clear Hne Hu.
    destruct c as [[] [] [] [] [] [] [] []]; vm_compute in Uc; try discriminate;
      vm_compute in Hl; discriminate.
Qed.

Lemma tokenize_tokens_from s : tokenize s = tokens_from TOKEN_PATTERNS 0 s.
Proof. reflexivity. Qed.

(** * The characters [>] and [<] end every token before them *)

Lemma tokenize_before_gt pre x :
  tokenize (pre ++ String ">" x) = tokenize pre ++ tokenize (String ">" x).
Proof.
  rewrite !tokenize_tokens_from. apply tokens_from_app; [reflexivity|].
  intros a p _ Hp. apply rmatch_avoids_tail; [reflexivity|assumption].
Qed.

Lemma tokenize_before_lt pre x :
  tokenize (pre ++ String "<" x) = tokenize pre ++ tokenize (String "<" x).
Proof.
  rewrite !tokenize_tokens_from. apply tokens_from_app; [reflexivity|].
  intros a p _ Hp. apply rmatch_avoids_tail; [reflexivity|assumption].
Qed.

Lemma tokenize_gt x :
  tokenize (String ">" x) = ("OPERATOR", ">") :: tokenize x.
Proof.
  rewrite !tokenize_tokens_from.
  apply tokens_from_emit; [reflexivity|]. reflexivity.
Qed.

Lemma tokenize_lt x :
  tokenize (String "<" x) = ("OPERATOR", "<") :: tokenize x.
Proof.
  rewrite !tokenize_tokens_from.
  apply tokens_from_emit; [reflexivity|]. reflexivity.
Qed.

Lemma tokenize_eq_eq x :
  tokenize (String "=" (String "=" x)) = ("OPERATOR", "==") :: tokenize x.
Proof.
  rewrite !tokenize_tokens_from.
  apply tokens_from_emit; [reflexivity|]. reflexivity.
Qed.

Lemma tokenize_lone_eq x :
  prefix "=" x = false -> tokenize (String "=" x) = tokenize x.
Proof.
  intro H. rewrite !tokenize_tokens_from.
  apply tokens_from_skip; [reflexivity|].
  destruct x as [|c x]; [reflexivity|].
  assert (Hne : "="%char <> c).
  { intro Heq. subst c. simpl in H. destruct x; discriminate H. }
  assert (E : chr_eqb true "=" c = false).
  { unfold chr_eqb. rewrite fold_case_eq_nonletter by reflexivity.
    apply Ascii.eqb_neq, Hne. }
  cbn -[chr_eqb]. rewrite E. reflexivity.
Qed.

(** * The tokenizer does not see the case of letters *)

Lemma fold_case_idem (c : ascii) : fold_case (fold_case c) = fold_case c.
Proof. destruct c as [[] [] [] [] [] [] [] []]; reflexivity. Qed.

Lemma is_digit_fold_case (c : ascii) : is_digit (fold_case c) = is_digit c.
Proof. destruct c as [[] [] [] [] [] [] [] []]; reflexivity. Qed.

Lemma chr_eqb_fold (a b : ascii) : chr_eqb true a (fold_case b) = chr_eqb true a b.
Proof. unfold chr_eqb. rewrite fold_case_idem. reflexivity. Qed.

Lemma fold_str_append (a b : string) :
  fold_str (a ++ b) = (fold_str a ++ fold_str b)%string.
Proof. induction a; simpl; congruence. Qed.

Lemma length_fold_str (s : string) : String.length (fold_str s) = String.length s.
Proof. induction s; simpl; congruence. Qed.

Lemma lit_split_fold lit : forall s,
  lit_split true lit (fold_str s) =
  option_map (fun m => (fold_str (fst m), fold_str (snd m))) (lit_split true lit s).
Proof.
  induction lit as [|a lit IH]; intro s; cbn [lit_split]; [reflexivity|].
  destruct s as [|b s]; cbn [fold_str]; [reflexivity|].
  rewrite chr_eqb_fold. destruct (chr_eqb true a b); [|reflexivity].
  rewrite IH. destruct (lit_split true lit s) as [[t r]|]; reflexivity.
Qed.

Lemma digit_splits_fold lo hi : forall s n,
  digit_splits lo hi n (fold_str s) =
  map (fun m => (fold_str (fst m), fold_str (snd m))) (digit_splits lo hi n s).
Proof.
  induction s as [|c s IH]; intro n; simpl.
  - destruct (lo <=? n); reflexivity.
  - rewrite is_digit_fold_case. destruct (is_digit c && below hi n).
    + rewrite IH, map_app, !map_map. f_equal. destruct (lo <=? n); reflexivity.
    + destruct (lo <=? n); reflexivity.
Qed.

Lemma rmatch_fold r : forall s,
  rmatch true r (fold_str s) = map fold_result (rmatch true r s).
Proof.
  induction r as [lit|lo hi|r1 IH1 r2 IH2|r1 IH1 r2 IH2|name r1 IH1];
    intro s; cbn [rmatch].
  - rewrite lit_split_fold. destruct (lit_split true lit s) as [[t r]|]; reflexivity.
  - rewrite digit_splits_fold, !map_map. reflexivity.
  - rewrite IH1, flat_map_map, map_flat_map. apply flat_map_ext_in.
    intros [[c1 t1] s1] _. cbn [fold_result]. rewrite IH2, !map_map.
    apply map_ext. intros [[c2 t2] s2]. cbn [fold_result].
    rewrite map_app, fold_str_append. reflexivity.
  - rewrite IH1, IH2, map_app. reflexivity.
  - rewrite IH1, !map_map. apply map_ext. intros [[c t] s1]. cbn [fold_result].
    rewrite map_app. reflexivity.
Qed.

Lemma finditer_from_fold r : forall s b,
  finditer_from true r b (fold_str s) =
  map (map fold_capture) (finditer_from true r b s).
Proof.
  assert (M : forall s, match_at true r (fold_str s)
                        = option_map fold_result (match_at true r s)).
  { intro s. unfold match_at. rewrite rmatch_fold. apply hd_error_map. }
  induction s as [|c s IH]; intro b.
  - destruct b; [|reflexivity].
    change (fold_str EmptyString) with EmptyString. cbn [finditer_from].
    pose proof (M EmptyString) as M0. change (fold_str EmptyString) with EmptyString in M0.
    destruct (match_at true r EmptyString) as [[[caps t] rest]|]; [|reflexivity].
    simpl in M0. injection M0 as Hc Ht Hr. cbn [map]. f_equal. exact Hc.
  - destruct b as [|b]; [|simpl; apply IH].
    pose proof (M (String c s)) as Mc. cbn [fold_str] in Mc.
    cbn [fold_str finditer_from]. rewrite Mc.
    destruct (match_at true r (String c s)) as [[[caps t] rest]|]; simpl option_map.
    + cbn [fold_result map]. rewrite length_fold_str, IH. reflexivity.
    + apply IH.
Qed.

Lemma group_fold (m : list capture) name :
  group (map fold_capture m) name = option_map fold_str (group m name).
Proof.
  induction m as [|[[n|] x] m IH]; simpl; [reflexivity| |assumption].
  destruct (n =? name)%string; [reflexivity|assumption].
Qed.

Lemma token_of_match_fold (m : list capture) :
  token_of_match (map fold_capture m) = fold_token (token_of_match m).
Proof.
  unfold token_of_match, lastgroup. rewrite <- map_rev.
  destruct (rev m) as [|[n x] l]; simpl; [reflexivity|].
  destruct n as [n|]; [|reflexivity].
  rewrite group_fold. destruct (group m n); reflexivity.
Qed.

Lemma tokenize_with_fold patterns s :
  tokenize_with patterns (fold_str s) = map fold_token (tokenize_with patterns s).
Proof.
  unfold tokenize_with, finditer. rewrite finditer_from_fold, !map_map.
  apply map_ext. apply token_of_match_fold.
Qed.

(** * The matches of a pattern, as a relation *)

Lemma in_rmatch_seq ic r1 r2 s c t rest :
  In (c, t, rest) (rmatch ic (Seq r1 r2) s) <->
  exists c1 t1 s1 c2 t2,
    In (c1, t1, s1) (rmatch ic r1 s) /\ In (c2, t2, rest) (rmatch ic r2 s1)
    /\ c = c1 ++ c2 /\ t = (t1 ++ t2)%string.
Proof.
  cbn [rmatch]. rewrite in_flat_map. split.
  - intros [[[c1 t1] s1] [H1 H2]]. apply in_map_iff in H2.
    destruct H2 as [[[c2 t2] s2] [Heq H2]]. inversion Heq; subst.
    exists c1, t1, s1, c2, t2. auto.
  - intros [c1 [t1 [s1 [c2 [t2 [H1 [H2 [-> ->]]]]]]]].
    exists (c1, t1, s1). split; [assumption|].
    apply in_map_iff. exists (c2, t2, rest). auto.
Qed.

Lemma in_rmatch_alt ic r1 r2 s m :
  In m (rmatch ic (Alt r1 r2) s) <-> In m (rmatch ic r1 s) \/ In m (rmatch ic r2 s).
Proof. cbn [rmatch]. apply in_app_iff. Qed.

Lemma in_rmatch_group ic name r s c t rest :
  In (c, t, rest) (rmatch ic (Group name r) s) <->
  exists c1, In (c1, t, rest) (rmatch ic r s) /\ c = c1 ++ [(name, t)].
Proof.
  cbn [rmatch]. rewrite in_map_iff. split.
  - intros [[[c1 t1] s1] [Heq H1]]. inversion Heq; subst. eauto.
  - intros [c1 [H1 ->]]. exists (c1, t, rest). auto.
Qed.

Lemma lit_split_self lit rest :
  lit_split false lit (lit ++ rest) = Some (lit, rest).
Proof.
  induction lit as [|a lit IH]; simpl; [reflexivity|].
  rewrite Ascii.eqb_refl, IH. reflexivity.
Qed.

Lemma lit_split_exact lit : forall s t rest,
  lit_split false lit s = Some (t, rest) <-> (t = lit /\ s = (lit ++ rest)%string).
Proof.
  intros s t rest. split.
  - revert s t rest. induction lit as [|a lit IH]; intros s t rest H; simpl in H.
    + inversion H; auto.
    + destruct s as [|b s]; [discriminate|].
      destruct (Ascii.eqb_spec a b) as [->|]; [|discriminate].
      destruct (lit_split false lit s) as [[t' rest']|] eqn:E; [|discriminate].
      inversion H; subst. destruct (IH _ _ _ E) as [-> ->]. auto.
  - intros [-> ->]. apply lit_split_self.
Qed.

Lemma in_rmatch_lit_exact lit s c t rest :
  In (c, t, rest) (rmatch false (Lit lit) s) <->
  (c = [] /\ t = lit /\ s = (lit ++ rest)%string).
Proof.
  cbn [rmatch]. split.
  - destruct (lit_split false lit s) as [[t' rest']|] eqn:E; simpl; [|contradiction].
    intros [H|[]]. inversion H; subst. apply lit_split_exact in E. tauto.
  - intros [-> [-> ->]]. rewrite lit_split_self. left. reflexivity.
Qed.

Lemma lit_split_fold_self lit : forall t rest,
  fold_str t = fold_str lit -> lit_split true lit (t ++ rest) = Some (t, rest).
Proof.
  induction lit as [|a lit IH]; intros t rest H; destruct t as [|b t];
    try discriminate H; cbn [lit_split append]; [reflexivity|].
  simpl in H. inversion H as [[Hc Ht]]. unfold chr_eqb.
  rewrite Hc, Ascii.eqb_refl, (IH _ _ Ht). reflexivity.
Qed.

Lemma lit_split_fold_eq lit : forall s t rest,
  lit_split true lit s = Some (t, rest) <->
  (s = (t ++ rest)%string /\ fold_str t = fold_str lit).
Proof.
  intros s t rest. split.
  - revert s t rest. induction lit as [|a lit IH]; intros s t rest H; cbn [lit_split] in H.
    + inversion H; auto.
    + destruct s as [|b s]; [discriminate|]. unfold chr_eqb in H.
      destruct (Ascii.eqb_spec (fold_case a) (fold_case b)) as [E|]; [|discriminate].
      destruct (lit_split true lit s) as [[t' rest']|] eqn:E'; [|discriminate].
      inversion H; subst. destruct (IH _ _ _ E') as [-> Hf].
      simpl. split; congruence.
  - intros [-> H]. apply lit_split_fold_self, H.
Qed.

Lemma in_rmatch_lit_fold lit s c t rest :
  In (c, t, rest) (rmatch true (Lit lit) s) <->
  (c = [] /\ s = (t ++ rest)%string /\ fold_str t = fold_str lit).
Proof.
  cbn [rmatch]. split.
  - destruct (lit_split true lit s) as [[t' rest']|] eqn:E; simpl; [|contradiction].
    intros [H|[]]. inversion H; subst. apply lit_split_fold_eq in E. tauto.
  - intros [-> [-> H]]. rewrite (lit_split_fold_self _ _ _ H). left. reflexivity.
Qed.

Lemma in_digit_splits lo hi : forall t rest n,
  all_digits t = true -> lo <= n + String.length t ->
  (forall h, hi = Some h -> n + String.length t <= h) ->
  In (t, rest) (digit_splits lo hi n (t ++ rest)).
Proof.
  induction t as [|c t IH]; intros rest n Hd Hlo Hhi.
  - simpl in *. assert (E : (lo <=? n) = true) by (apply Nat.leb_le; lia).
    destruct rest as [|b rest]; simpl; rewrite E.
    + left; reflexivity.
    + destruct (is_digit b && below hi n); [apply in_or_app; right|]; left; reflexivity.
  - simpl in Hd. apply andb_prop in Hd. destruct Hd as [Hc Hd].
    simpl. rewrite Hc.
    assert (B : below hi n = true).
    { destruct hi as [h|]; [|reflexivity]. simpl. apply Nat.ltb_lt.
      specialize (Hhi h eq_refl). simpl in Hhi. lia. }
    rewrite B. simpl. apply in_or_app. left.
    apply in_map_iff. exists (t, rest). split; [reflexivity|].
    apply IH; [assumption|simpl in Hlo; lia|].
    intros h Hh. specialize (Hhi h Hh). simpl in Hhi. lia.
Qed.

Lemma digit_splits_upper lo h : forall s n t rest,
  In (t, rest) (digit_splits lo (Some h) n s) ->
  t = EmptyString \/ n + String.length t <= h.
Proof.
  induction s as [|c s IH]; intros n t rest H; simpl in H.
  - destruct (lo <=? n); simpl in H; [|contradiction].
    destruct H as [H|[]]. inversion H. auto.
  - assert (Hhere : In (t, rest) (if lo <=? n then [(EmptyString, String c s)] else []) ->
                    t = EmptyString \/ n + String.length t <= h).
    { destruct (lo <=? n); simpl; [|contradiction]. intros [H'|[]]. inversion H'. auto. }
    destruct (is_digit c && (n <? h)) eqn:D; [|auto].
    apply in_app_or in H. destruct H as [H|H]; [|auto].
    apply in_map_iff in H. destruct H as [[t' rest'] [Heq Hin]].
    inversion Heq; subst. right. simpl.
    apply andb_prop in D. destruct D as [_ D]. apply Nat.ltb_lt in D.
    destruct (IH _ _ _ Hin) as [->|Hle]; simpl; lia.
Qed.

Lemma in_rmatch_digits ic lo h s c t rest :
  1 <= lo ->
  In (c, t, rest) (rmatch ic (Digits lo (Some h)) s) <->
  (c = [] /\ s = (t ++ rest)%string /\ all_digits t = true
   /\ lo <= String.length t /\ String.length t <= h).
Proof.
  intro Hlo. cbn [rmatch]. rewrite in_map_iff. split.
  - intros [[t' rest'] [Heq Hin]]. inversion Heq; subst. simpl.
    destruct (digit_splits_app _ _ _ _ _ _ Hin) as [-> [Hd Hl]].
    destruct (digit_splits_upper _ _ _ _ _ _ Hin) as [->|Hu]; simpl in *.
    + lia.
    + repeat split; auto.
  - intros [-> [-> [Hd [Hl Hu]]]]. exists (t, rest). split; [reflexivity|].
    apply in_digit_splits; auto. intros h' Hh'. inversion Hh'; subst. simpl. assumption.
Qed.

Lemma in_rmatch_digits_plus ic lo s c t rest :
  In (c, t, rest) (rmatch ic (Digits lo None) s) <->
  (c = [] /\ s = (t ++ rest)%string /\ all_digits t = true /\ lo <= String.length t).
Proof.
  cbn [rmatch]. rewrite in_map_iff. split.
  - intros [[t' rest'] [Heq Hin]]. inversion Heq; subst. simpl.
    destruct (digit_splits_app _ _ _ _ _ _ Hin) as [-> [Hd Hl]]. auto.
  - intros [-> [-> [Hd Hl]]]. exists (t, rest). split; [reflexivity|].
    apply in_digit_splits; auto. discriminate.
Qed.

(** * The time check *)

Lemma time_like_inv h m mer :
  time_like h m mer = true ->
  all_digits h = true /\ 1 <= String.length h /\ String.length h <= 2
  /\ all_digits m = true /\ String.length m = 2 /\ (mer = "AM" \/ mer = "PM").
Proof.
  unfold time_like. intro H.
  repeat (apply andb_prop in H; destruct H as [H ?]).
  repeat match goal with
         | X : (_ <=? _) = true |- _ => apply Nat.leb_le in X
         | X : (_ =? _) = true |- _ => apply Nat.eqb_eq in X
         end.
  repeat split; auto.
  match goal with X : (_ || _) = true |- _ => apply orb_prop in X; destruct X as [X|X];
    apply String.eqb_eq in X; auto end.
Qed.

Lemma time_like_intro h m mer :
  all_digits h = true -> 1 <= String.length h -> String.length h <= 2 ->
  all_digits m = true -> String.length m = 2 -> (mer = "AM" \/ mer = "PM") ->
  time_like h m mer = true.
Proof.
  intros H1 H2 H3 H4 H5 H6. unfold time_like.
  rewrite H1, H4, H5. apply Nat.leb_le in H2, H3. rewrite H2, H3.
  destruct H6 as [->| ->]; reflexivity.
Qed.

Lemma in_TIME_CHECK s c t rest :
  In (c, t, rest) (rmatch false TIME_CHECK s) <->
  exists h m mer,
    time_like h m mer = true /\ s = (time_text h m mer ++ rest)%string
    /\ c = [(None, h); (None, m); (None, mer)] /\ t = time_text h m mer.
Proof.
  unfold TIME_CHECK. cbn [seq_of words alt_of map]. split.
  - intro H.
    apply in_rmatch_seq in H. destruct H as [c1 [t1 [s1 [c1' [t1' [H1 [H [-> ->]]]]]]]].
    apply in_rmatch_seq in H. destruct H as [c2 [t2 [s2 [c2' [t2' [H2 [H [-> ->]]]]]]]].
    apply in_rmatch_seq in H. destruct H as [c3 [t3 [s3 [c3' [t3' [H3 [H [-> ->]]]]]]]].
    apply in_rmatch_seq in H. destruct H as [c4 [t4 [s4 [c5 [t5 [H4 [H5 [-> ->]]]]]]]].
    apply in_rmatch_group in H1. destruct H1 as [c1' [H1 ->]].
    apply in_rmatch_digits in H1; [|lia]. destruct H1 as [-> [-> [D1 [L1 U1]]]].
    apply in_rmatch_lit_exact in H2. destruct H2 as [-> [-> ->]].
    apply in_rmatch_group in H3. destruct H3 as [c3' [H3 ->]].
    apply in_rmatch_digits in H3; [|lia]. destruct H3 as [-> [-> [D3 [L3 U3]]]].
    apply in_rmatch_lit_exact in H4. destruct H4 as [-> [-> ->]].
    apply in_rmatch_group in H5. destruct H5 as [c5' [H5 ->]].
    assert (M : c5' = [] /\ (t5 = "AM" \/ t5 = "PM") /\ s4 = (t5 ++ rest)%string).
    { apply in_rmatch_alt in H5. destruct H5 as [H5|H5];
        apply in_rmatch_lit_exact in H5; destruct H5 as [-> [-> ->]]; auto. }
    destruct M as [-> [M ->]].
    exists t1, t3, t5. split; [apply time_like_intro; auto; lia|].
    unfold time_text. rewrite !append_assoc. simpl. auto.
  - intros [h [m [mer [TL [-> [-> ->]]]]]].
    apply time_like_inv in TL. destruct TL as [D1 [L1 [U1 [D3 [L3 M]]]]].
    apply in_rmatch_seq.
    exists [(None, h)], h, (":" ++ m ++ " " ++ mer ++ rest)%string,
      [(None, m); (None, mer)], (":" ++ m ++ " " ++ mer)%string.
    split; [|split; [|split; [reflexivity|reflexivity]]].
    { unfold time_text. rewrite !append_assoc.
      apply in_rmatch_group. exists []. split; [|reflexivity].
      apply in_rmatch_digits; [lia|]. simpl. auto. }
    apply in_rmatch_seq.
    exists [], ":"%string, (m ++ " " ++ mer ++ rest)%string,
      [(None, m); (None, mer)], (m ++ " " ++ mer)%string.
    split; [apply in_rmatch_lit_exact; auto|].
    split; [|split; reflexivity].
    apply in_rmatch_seq.
    exists [(None, m)], m, (" " ++ mer ++ rest)%string, [(None, mer)], (" " ++ mer)%string.
    split; [|split; [|split; reflexivity]].
    { apply in_rmatch_group. exists []. split; [|reflexivity].
      apply in_rmatch_digits; [lia|]. repeat split; auto; lia. }
    apply in_rmatch_seq.
    exists [], " "%string, (mer ++ rest)%string, [(None, mer)], mer.
    split; [apply in_rmatch_lit_exact; auto|].
    split; [|split; reflexivity].
    apply in_rmatch_group. exists []. split; [|reflexivity].
    apply in_rmatch_alt.
    destruct M as [-> | ->]; [left|right]; apply in_rmatch_lit_exact; auto.
Qed.

Lemma time_split_unique h m mer rest h' m' mer' rest' :
  time_like h m mer = true -> time_like h' m' mer' = true ->
  (time_text h m mer ++ rest)%string = (time_text h' m' mer' ++ rest')%string ->
  h = h' /\ m = m' /\ mer = mer' /\ rest = rest'.
Proof.
  intros T T' E.
  apply time_like_inv in T. destruct T as [D1 [L1 [U1 [D3 [L3 M]]]]].
  apply time_like_inv in T'. destruct T' as [D1' [L1' [U1' [D3' [L3' M']]]]].
  unfold time_text in E.
  destruct m as [|m1 [|m2 [|]]]; try discriminate L3.
  destruct m' as [|m1' [|m2' [|]]]; try discriminate L3'.
  destruct h as [|a [|b [|]]]; simpl in L1, U1; try lia;
    destruct h' as [|a' [|b' [|]]]; simpl in L1', U1'; try lia;
    destruct M as [-> | ->]; destruct M' as [-> | ->];
    simpl in E; inversion E; subst; auto;
    simpl in D1, D1', D3, D3';
    repeat match goal with
           | X : (_ && _) = true |- _ => apply andb_prop in X; destruct X
           end;
    try discriminate.
Qed.

Lemma hd_error_unique {A} (l : list A) (x : A) :
  (forall y z, In y l -> In z l -> y = z) ->
  (hd_error l = Some x <-> In x l).
Proof.
  intro U. destruct l as [|a l]; simpl.
  - split; [discriminate|contradiction].
  - split.
    + intro H. inversion H. auto.
    + intro H. f_equal. apply U; simpl; auto.
Qed.

Lemma match_at_TIME_CHECK s c t rest :
  match_at false TIME_CHECK s = Some (c, t, rest) <->
  exists h m mer,
    time_like h m mer = true /\ s = (time_text h m mer ++ rest)%string
    /\ c = [(None, h); (None, m); (None, mer)] /\ t = time_text h m mer.
Proof.
  unfold match_at. rewrite hd_error_unique; [apply in_TIME_CHECK|].
  intros [[c1 t1] r1] [[c2 t2] r2] H1 H2.
  apply in_TIME_CHECK in H1, H2.
  destruct H1 as [h [m [mer [T [E [-> ->]]]]]].
  destruct H2 as [h' [m' [mer' [T' [E' [-> ->]]]]]].
  rewrite E in E'.
  destruct (time_split_unique _ _ _ _ _ _ _ _ T T' E') as [-> [-> [-> ->]]].
  reflexivity.
Qed.

Lemma match_at_TIME_CHECK_none s :
  match_at false TIME_CHECK s = None <-> ~ starts_with_time s.
Proof.
  split.
  - intros H [h [m [mer [post [T E]]]]].
    assert (X : match_at false TIME_CHECK s
                = Some ([(None, h); (None, m); (None, mer)], time_text h m mer, post)).
    { apply match_at_TIME_CHECK. exists h, m, mer. auto. }
    congruence.
  - intro H. destruct (match_at false TIME_CHECK s) as [[[c t] rest]|] eqn:E; [|reflexivity].
    exfalso. apply H. apply match_at_TIME_CHECK in E.
    destruct E as [h [m [mer [T [E _]]]]]. exists h, m, mer, rest. auto.
Qed.

Lemma search_spec ic r : forall s caps,
  search ic r s = Some caps <->
  exists pre rest t rest',
    s = (pre ++ rest)%string /\ match_at ic r rest = Some (caps, t, rest')
    /\ forall a b, pre = (a ++ b)%string -> b <> EmptyString ->
                   match_at ic r (b ++ rest) = None.
Proof.
  induction s as [|x s IH]; intro caps; simpl.
  - destruct (match_at ic r EmptyString) as [[[c t] rest']|] eqn:E.
    + split.
      * intro H. inversion H; subst. exists EmptyString, EmptyString, t, rest'.
        repeat split; auto. intros a b Hab Hb. destruct a; destruct b; simpl in Hab; congruence.
      * intros [pre [rest [t' [rest'' [Hs [Hm _]]]]]].
        destruct pre; [|discriminate]. simpl in Hs. subst rest. congruence.
    + split; [discriminate|].
      intros [pre [rest [t' [rest'' [Hs [Hm _]]]]]].
      destruct pre; [|discriminate]. simpl in Hs. subst rest. congruence.
  - destruct (match_at ic r (String x s)) as [[[c t] rest']|] eqn:E.
    + split.
      * intro H. inversion H; subst. exists EmptyString, (String x s), t, rest'.
        repeat split; auto. intros a b Hab Hb. destruct a; destruct b; simpl in Hab; congruence.
      * intros [pre [rest [t' [rest'' [Hs [Hm Hno]]]]]].
        destruct pre as [|y pre].
        -- simpl in Hs. subst rest. congruence.
        -- specialize (Hno EmptyString (String y pre) eq_refl).
           rewrite <- Hs in Hno. rewrite Hno in E by discriminate. discriminate.
    + rewrite IH. split.
      * intros [pre [rest [t' [rest'' [Hs [Hm Hno]]]]]].
        exists (String x pre), rest, t', rest''. subst s.
        repeat split; auto.
        intros a b Hab Hb. destruct a as [|y a]; simpl in Hab.
        -- subst b. exact E.
        -- inversion Hab; subst. apply (Hno a b); auto.
      * intros [pre [rest [t' [rest'' [Hs [Hm Hno]]]]]].
        destruct pre as [|y pre].
        -- simpl in Hs. subst rest. congruence.
        -- inversion Hs; subst. exists pre, rest, t', rest''.
           repeat split; auto.
           intros a b Hab Hb. apply (Hno (String y a) b); [subst; reflexivity|assumption].
Qed.

Lemma invalid_time_spec command :
  invalid_time command = true <->
  exists h m, leftmost_time command h m /\ out_of_range h m = true.
Proof.
  unfold invalid_time.
  destruct (search false TIME_CHECK command) as [caps|] eqn:S.
  - apply search_spec in S.
    destruct S as [pre [rest [t [rest' [Hs [Hm Hno]]]]]].
    apply match_at_TIME_CHECK in Hm.
    destruct Hm as [h [m [mer [T [Hr [-> ->]]]]]].
    assert (L : leftmost_time command h m).
    { exists pre, mer, rest'. rewrite Hs, Hr. repeat split; auto.
      intros a b Hab Hb. rewrite <- Hr.
      apply match_at_TIME_CHECK_none. apply (Hno a b); assumption. }
    cbn [groups map snd]. unfold out_of_range. simpl (0 <=? _).
    split.
    + intro H. exists h, m. split; assumption.
    + intros [h' [m' [L' O]]].
      destruct L as [pre1 [mer1 [post1 [E1 [T1 N1]]]]].
      destruct L' as [pre2 [mer2 [post2 [E2 [T2 N2]]]]].
      assert (P : pre1 = pre2 /\ (time_text h m mer1 ++ post1)%string
                                 = (time_text h' m' mer2 ++ post2)%string).
      { clear -E1 E2 T1 T2 N1 N2. subst command.
        revert pre2 E2 N2 N1. induction pre1 as [|x pre1 IH]; intros pre2 E2 N2 N1.
        - destruct pre2 as [|y pre2]; [auto|]. exfalso.
          apply (N2 EmptyString (String y pre2) eq_refl); [discriminate|].
          rewrite <- E2. exists h, m, mer1, post1. auto.
        - destruct pre2 as [|y pre2].
          + exfalso. apply (N1 EmptyString (String x pre1) eq_refl); [discriminate|].
            simpl in E2. simpl. rewrite E2. exists h', m', mer2, post2. auto.
          + simpl in E2. inversion E2; subst.
            destruct (IH pre2) as [-> E]; auto.
            * intros a b Hab Hb. apply (N2 (String y a) b); [subst; reflexivity|assumption].
            * intros a b Hab Hb. apply (N1 (String y a) b); [subst; reflexivity|assumption]. }
      destruct P as [_ P].
      destruct (time_split_unique _ _ _ _ _ _ _ _ T1 T2 P) as [-> [-> _]].
      exact O.
  - split; [discriminate|].
    intros [h [m [[pre [mer [post [E [T N]]]]] O]]].
    assert (X : search false TIME_CHECK command
                = Some [(None, h); (None, m); (None, mer)]).
    { apply search_spec.
      exists pre, (time_text h m mer ++ post)%string, (time_text h m mer), post.
      repeat split; auto.
      - apply match_at_TIME_CHECK. exists h, m, mer. auto.
      - intros a b Hab Hb. apply match_at_TIME_CHECK_none. apply (N a b); assumption. }
    congruence.
Qed.

(** * Digits at the seam between two texts *)

Lemma rmatch_nil_nonnull ic r :
  nonnull r = true -> rmatch ic r EmptyString = [].
Proof.
  intro Hn. destruct (rmatch ic r EmptyString) as [|[[c t] rest] l] eqn:E; [reflexivity|].
  assert (Hin : In (c, t, rest) (rmatch ic r EmptyString)) by (rewrite E; left; reflexivity).
  pose proof (rmatch_app _ _ _ _ _ _ Hin) as Ha.
  pose proof (rmatch_nonnull _ _ Hn _ _ _ _ Hin) as Hne.
  destruct t; [congruence|discriminate].
Qed.

Lemma chr_eqb_digit ic a c :
  is_digit a = false -> is_digit c = true -> chr_eqb ic a c = false.
Proof.
  intros Ha Hc. unfold chr_eqb. destruct ic.
  - apply Ascii.eqb_neq. intro E.
    apply (f_equal is_digit) in E. rewrite !is_digit_fold_case in E. congruence.
  - apply Ascii.eqb_neq. intro E. subst. congruence.
Qed.

Lemma text_digit_free_avoids ic c s :
  text_digit_free s = true -> is_digit c = true -> text_avoids ic c s = true.
Proof.
  intros Hs Hc. induction s as [|a s IH]; simpl in *; [reflexivity|].
  apply andb_prop in Hs. destruct Hs as [Ha Hs]. apply negb_true_iff in Ha.
  rewrite (chr_eqb_digit ic a c Ha Hc), (IH Hs). reflexivity.
Qed.

Lemma digit_free_avoids ic c r :
  digit_free r = true -> is_digit c = true -> avoids ic c r = true.
Proof.
  intros Hr Hc.
  induction r as [lit|lo hi|r1 IH1 r2 IH2|r1 IH1 r2 IH2|name r1 IH1]; simpl in *.
  - apply text_digit_free_avoids; assumption.
  - discriminate.
  - apply andb_prop in Hr. destruct Hr. rewrite IH1, IH2; auto.
  - apply andb_prop in Hr. destruct Hr. rewrite IH1, IH2; auto.
  - auto.
Qed.

Lemma local_digit_free ic r p c x :
  digit_free r = true -> is_digit c = true -> local ic r p (String c x).
Proof. intros Hr Hc. apply rmatch_avoids, digit_free_avoids; assumption. Qed.

Lemma rmatch_digit_start ic r c x :
  digit_free r = true -> nonnull r = true -> is_digit c = true ->
  rmatch ic r (String c x) = [].
Proof.
  intros Hr Hn Hc.
  pose proof (local_digit_free ic r EmptyString c x Hr Hc) as L.
  unfold local in L. simpl append in L. rewrite L, rmatch_nil_nonnull by assumption.
  reflexivity.
Qed.

Lemma ends_with_digit_cons c s :
  s <> EmptyString -> ends_with_digit (String c s) = ends_with_digit s.
Proof. destruct s; [congruence|reflexivity]. Qed.

Lemma ends_with_digit_suffix a : forall b,
  b <> EmptyString -> ends_with_digit (a ++ b) = ends_with_digit b.
Proof.
  induction a as [|c a IH]; intros b Hb; [reflexivity|].
  simpl append. rewrite ends_with_digit_cons; [apply IH, Hb|].
  destruct a; simpl; [assumption|discriminate].
Qed.

(** What is left of a text that does not end with a digit, after some
    digits are read, is not empty and does not end with a digit. *)
Lemma after_digits_nonempty t : forall p s1,
  p = (t ++ s1)%string -> all_digits t = true ->
  p <> EmptyString -> ends_with_digit p = false ->
  s1 <> EmptyString /\ ends_with_digit s1 = false.
Proof.
  induction t as [|c t IH]; intros p s1 -> Hd Hne He.
  - simpl in *. auto.
  - simpl in Hd. apply andb_prop in Hd. destruct Hd as [Hc Hd].
    destruct (t ++ s1)%string as [|y z] eqn:E.
    + simpl in He. rewrite E in He. simpl in He. congruence.
    + apply (IH (String y z) s1); auto; [discriminate|].
      simpl append in He. rewrite E in He.
      rewrite ends_with_digit_cons in He by discriminate. exact He.
Qed.

Lemma digit_splits_local lo hi rest : forall p n,
  p <> EmptyString -> ends_with_digit p = false ->
  digit_splits lo hi n (p ++ rest) =
  map (fun m => (fst m, (snd m ++ rest)%string)) (digit_splits lo hi n p).
Proof.
  induction p as [|c p IH]; intros n Hne He; [congruence|].
  destruct p as [|d p].
  - simpl in He. simpl. rewrite He. simpl. destruct (lo <=? n); reflexivity.
  - rewrite ends_with_digit_cons in He by discriminate.
    specialize (IH (S n) ltac:(discriminate) He).
    change (String c (String d p) ++ rest)%string
      with (String c (String d p ++ rest)).
    cbn [digit_splits].
    destruct (is_digit c && below hi n).
    + rewrite IH, map_app, !map_map. f_equal. destruct (lo <=? n); reflexivity.
    + destruct (lo <=? n); reflexivity.
Qed.

Lemma local_digits ic lo hi p rest :
  p <> EmptyString -> ends_with_digit p = false ->
  local ic (Digits lo hi) p rest.
Proof.
  intros Hne He. unfold local. cbn [rmatch].
  rewrite digit_splits_local, !map_map by assumption. reflexivity.
Qed.

(** A pattern that starts with digits and then reads no digit is local on
    a text that does not end with a digit, before a text that starts with
    one. *)
Lemma local_digits_then ic lo hi r p c x :
  digit_free r = true -> is_digit c = true ->
  p <> EmptyString -> ends_with_digit p = false ->
  local ic (Seq (Digits lo hi) r) p (String c x).
Proof.
  intros Hr Hc Hne He. apply local_seq; [apply local_digits; assumption|].
  intros. apply local_digit_free; assumption.
Qed.

Lemma local_compile ic ps p rest :
  ps <> [] ->
  (forall kp, In kp ps -> local ic (snd kp) p rest) ->
  local ic (compile_patterns ps) p rest.
Proof.
  intros Hne H. unfold local. rewrite !rmatch_compile by assumption.
  rewrite map_flat_map. apply flat_map_ext_in. intros kp Hin.
  rewrite (H kp Hin), !map_map. apply map_ext. intros [[c t] s]. reflexivity.
Qed.

(** Two readings of the same text as digits followed by a non-digit
    agree. *)
Lemma digits_then_unique n : forall t c x d y,
  all_digits n = true -> all_digits t = true ->
  is_digit c = false -> is_digit d = false ->
  (n ++ String c x)%string = (t ++ String d y)%string ->
  n = t /\ c = d /\ x = y.
Proof.
  induction n as [|a n IH]; intros t c x d y Hn Ht Hc Hd E.
  - destruct t as [|b t]; simpl in E.
    + inversion E; auto.
    + inversion E; subst. simpl in Ht. apply andb_prop in Ht. destruct Ht. congruence.
  - simpl in Hn. apply andb_prop in Hn. destruct Hn as [Ha Hn].
    destruct t as [|b t]; simpl in E.
    + inversion E; subst. congruence.
    + inversion E; subst. simpl in Ht. apply andb_prop in Ht. destruct Ht as [_ Ht].
      destruct (IH _ _ _ _ _ Hn Ht Hc Hd H1) as [-> [-> ->]]. auto.
Qed.

Lemma fold_str_single_nonletter (t : string) (a : ascii) :
  is_upper a = false ->
  (97 <=? nat_of_ascii a) && (nat_of_ascii a <=? 122) = false ->
  fold_str t = fold_str (String a EmptyString) -> t = String a EmptyString.
Proof.
  intros Hu Hl E. destruct t as [|b [|]]; try discriminate E.
  simpl in E. inversion E as [E'].
  assert (X : Ascii.eqb (fold_case a) (fold_case b) = true)
    by (rewrite E'; apply Ascii.eqb_refl).
  rewrite fold_case_eq_nonletter in X by assumption.
  apply Ascii.eqb_eq in X. congruence.
Qed.

(** * The head of the list of matches *)

Lemma nil_of_no_in {A} (l : list A) : (forall x, ~ In x l) -> l = [].
Proof. destruct l as [|a l]; [reflexivity|]. intro H. exfalso. apply (H a). left. reflexivity. Qed.

Lemma hd_seq ic r1 r2 s c1 t1 s1 c2 t2 s2 :
  hd_error (rmatch ic r1 s) = Some (c1, t1, s1) ->
  hd_error (rmatch ic r2 s1) = Some (c2, t2, s2) ->
  hd_error (rmatch ic (Seq r1 r2) s) = Some (c1 ++ c2, (t1 ++ t2)%string, s2).
Proof.
  intros H1 H2. cbn [rmatch].
  destruct (rmatch ic r1 s) as [|m1 l1]; [discriminate|]. inversion H1; subst.
  cbn [flat_map]. destruct (rmatch ic r2 s1) as [|m2 l2]; [discriminate|].
  inversion H2; subst. reflexivity.
Qed.

Lemma hd_group ic name r s c t rest :
  hd_error (rmatch ic r s) = Some (c, t, rest) ->
  hd_error (rmatch ic (Group name r) s) = Some (c ++ [(name, t)], t, rest).
Proof.
  intro H. cbn [rmatch]. destruct (rmatch ic r s) as [|m l]; [discriminate|].
  inversion H; subst. reflexivity.
Qed.

Lemma hd_lit_fold lit t rest :
  fold_str t = fold_str lit ->
  hd_error (rmatch true (Lit lit) (t ++ rest)) = Some ([], t, rest).
Proof. intro H. cbn [rmatch]. rewrite (lit_split_fold_self _ _ _ H). reflexivity. Qed.

Lemma hd_digit_splits lo hi : forall t rest n,
  all_digits t = true -> lo <= n + String.length t ->
  (forall h, hi = Some h -> n + String.length t <= h) ->
  match rest with EmptyString => true | String c _ => negb (is_digit c) end = true ->
  hd_error (digit_splits lo hi n (t ++ rest)) = Some (t, rest).
Proof.
  induction t as [|a t IH]; intros rest n Hd Hlo Hhi Hr.
  - simpl in *. assert (E : (lo <=? n) = true) by (apply Nat.leb_le; lia).
    destruct rest as [|c x]; simpl; rewrite E; [reflexivity|].
    apply negb_true_iff in Hr. rewrite Hr. reflexivity.
  - simpl in Hd. apply andb_prop in Hd. destruct Hd as [Ha Hd].
    simpl. rewrite Ha.
    assert (B : below hi n = true).
    { destruct hi as [h|]; [|reflexivity]. simpl. apply Nat.ltb_lt.
      specialize (Hhi h eq_refl). simpl in Hhi. lia. }
    rewrite B. simpl.
    assert (X : hd_error (digit_splits lo hi (S n) (t ++ rest)) = Some (t, rest)).
    { apply IH; auto; [simpl in Hlo; lia|].
      intros h Hh. specialize (Hhi h Hh). simpl in Hhi. lia. }
    destruct (digit_splits lo hi (S n) (t ++ rest)) as [|m l]; [discriminate|].
    inversion X; subst. reflexivity.
Qed.

Lemma hd_digits ic lo hi t rest :
  all_digits t = true -> lo <= String.length t ->
  (forall h, hi = Some h -> String.length t <= h) ->
  match rest with EmptyString => true | String c _ => negb (is_digit c) end = true ->
  hd_error (rmatch ic (Digits lo hi) (t ++ rest)) = Some ([], t, rest).
Proof.
  intros Hd Hlo Hhi Hr. cbn [rmatch]. rewrite hd_error_map.
  rewrite (hd_digit_splits lo hi t rest 0); auto.
Qed.

Lemma next_token_skip kp ps s :
  rmatch true (snd kp) s = [] -> next_token (kp :: ps) s = next_token ps s.
Proof. intro H. cbn [next_token]. rewrite H. reflexivity. Qed.

Lemma next_token_hit kp ps s c t rest :
  hd_error (rmatch true (snd kp) s) = Some (c, t, rest) ->
  next_token (kp :: ps) s = Some ((fst kp, t), rest).
Proof.
  intro H. cbn [next_token].
  destruct (rmatch true (snd kp) s) as [|m l]; [discriminate|].
  inversion H; subst. reflexivity.
Qed.

(** * Time and interval spans *)

Lemma interval_like_inv n unit :
  interval_like n unit = true ->
  all_digits n = true /\ 1 <= String.length n
  /\ (unit = "seconds" \/ unit = "minutes" \/ unit = "hours").
Proof.
  unfold interval_like. intro H.
  apply andb_prop in H. destruct H as [H U].
  apply andb_prop in H. destruct H as [D L]. apply Nat.leb_le in L.
  repeat split; auto.
  apply orb_prop in U. destruct U as [U|U]; [apply orb_prop in U; destruct U as [U|U]|];
    apply String.eqb_eq in U; auto.
Qed.

Lemma time_text_app h m mer post :
  (time_text h m mer ++ post)%string
  = (h ++ String ":" (m ++ String " " (mer ++ post)))%string.
Proof. unfold time_text. rewrite !append_assoc. reflexivity. Qed.

Lemma interval_text_app n unit post :
  (interval_text n unit ++ post)%string = (n ++ String " " (unit ++ post))%string.
Proof. unfold interval_text. rewrite !append_assoc. reflexivity. Qed.

Lemma in_minutes_tail s c t rest :
  In (c, t, rest) (rmatch true minutes_tail s) ->
  exists d mer,
    all_digits d = true /\ s = (d ++ String " " (mer ++ rest))%string
    /\ (fold_str mer = "am" \/ fold_str mer = "pm").
Proof.
  unfold minutes_tail. intro H.
  apply in_rmatch_seq in H. destruct H as [c1 [t1 [s1 [c1' [t1' [H1 [H [-> ->]]]]]]]].
  apply in_rmatch_seq in H. destruct H as [c2 [t2 [s2 [c3 [t3 [H2 [H3 [-> ->]]]]]]]].
  apply in_rmatch_digits in H1; [|lia]. destruct H1 as [-> [-> [D1 _]]].
  apply in_rmatch_lit_fold in H2. destruct H2 as [-> [-> F2]].
  apply fold_str_single_nonletter in F2; [|reflexivity|reflexivity]. subst t2.
  apply in_rmatch_group in H3. destruct H3 as [c3' [H3 ->]].
  exists t1, t3. split; [assumption|].
  apply in_rmatch_alt in H3. destruct H3 as [H3|H3];
    apply in_rmatch_lit_fold in H3; destruct H3 as [-> [-> F3]];
    (split; [reflexivity|]); [left|right]; exact F3.
Qed.

Lemma minutes_tail_not_on_time h m mer post :
  time_like h m mer = true ->
  rmatch true minutes_tail (time_text h m mer ++ post) = [].
Proof.
  intro T. apply time_like_inv in T. destruct T as [D1 _].
  apply nil_of_no_in. intros [[c t] rest] H.
  apply in_minutes_tail in H. destruct H as [d [mer' [Dd [E _]]]].
  rewrite time_text_app in E.
  destruct (digits_then_unique h d ":" _ " " _ D1 Dd eq_refl eq_refl E) as [_ [X _]].
  discriminate X.
Qed.

Lemma minutes_tail_not_on_interval n unit post :
  interval_like n unit = true ->
  rmatch true minutes_tail (interval_text n unit ++ post) = [].
Proof.
  intro T. apply interval_like_inv in T. destruct T as [D1 [_ U]].
  apply nil_of_no_in. intros [[c t] rest] H.
  apply in_minutes_tail in H. destruct H as [d [mer' [Dd [E F]]]].
  rewrite interval_text_app in E.
  destruct (digits_then_unique n d " " _ " " _ D1 Dd eq_refl eq_refl E) as [_ [_ X]].
  destruct mer' as [|x1 mer'];
    [destruct F as [F|F]; discriminate F|].
  destruct U as [->|[->| ->]]; simpl in X; inversion X; subst;
    destruct F as [F|F]; simpl in F; inversion F as [[F1 F2]]; discriminate F1.
Qed.

(** * The seam before a span that starts with a digit *)

Lemma local_TOKEN_REGEX_seam p c x :
  is_digit c = true ->
  rmatch true minutes_tail (String c x) = [] ->
  p <> EmptyString -> ends_with_digit p = false ->
  local true TOKEN_REGEX p (String c x).
Proof.
  intros Hc Hseam Hne He. unfold TOKEN_REGEX.
  apply local_compile; [discriminate|].
  intros kp Hin. unfold TOKEN_PATTERNS in Hin. cbn [In] in Hin.
  repeat (destruct Hin as [<-|Hin]; [cbn [snd]|]); try contradiction;
    try (apply local_digit_free; [reflexivity|assumption]).
  - (* TIME *)
    cbn [seq_of words alt_of map].
    apply local_seq; [apply local_digits; assumption|].
    intros c1 t1 s1 H1.
    apply in_rmatch_digits in H1; [|lia]. destruct H1 as [_ [Hp [D1 _]]].
    destruct (after_digits_nonempty _ _ _ Hp D1 Hne He) as [Hne1 He1].
    apply local_seq; [apply rmatch_avoids_tail; [reflexivity|assumption]|].
    intros c2 t2 s2 H2.
    apply in_rmatch_lit_fold in H2. destruct H2 as [_ [Hs1 F2]].
    apply fold_str_single_nonletter in F2; [|reflexivity|reflexivity]. subst t2.
    change (Seq (Digits 2 (Some 2))
              (Seq (Lit " ") (Group None (Alt (Lit "AM") (Lit "PM")))))
      with minutes_tail.
    destruct s2 as [|y s2].
    + unfold local. simpl append. rewrite Hseam, rmatch_nil_nonnull by reflexivity.
      reflexivity.
    + assert (He2 : ends_with_digit (String y s2) = false).
      { rewrite Hs1 in He1. rewrite ends_with_digit_suffix in He1 by discriminate.
        exact He1. }
      unfold minutes_tail. apply local_digits_then; auto. discriminate.
  - (* TIME_INTERVAL *)
    cbn [seq_of]. apply local_digits_then; auto.
  - (* NUMBER *)
    apply local_digits; assumption.
Qed.

(** The tokens before a span that starts with a digit do not depend on
    the span, when the text before it does not end with a digit. *)
Lemma tokenize_before_digit_seam pre c x :
  is_digit c = true ->
  rmatch true minutes_tail (String c x) = [] ->
  ends_with_digit pre = false ->
  tokenize (pre ++ String c x) = tokenize pre ++ tokenize (String c x).
Proof.
  intros Hc Hseam He. rewrite !tokenize_tokens_from.
  apply tokens_from_app; [reflexivity|].
  intros a p Hpre Hp. apply local_TOKEN_REGEX_seam; auto.
  rewrite Hpre in He. rewrite ends_with_digit_suffix in He by assumption. exact He.
Qed.

Lemma hd_TIME h m mer post :
  time_like h m mer = true ->
  hd_error (rmatch true
              (seq_of [Digits 1 (Some 2); Lit ":"; Digits 2 (Some 2); Lit " ";
                       Group None (words ["AM"; "PM"])])
              (h ++ String ":" (m ++ String " " (mer ++ post))))
  = Some ([(None, mer)], time_text h m mer, post).
Proof.
  intro T. apply time_like_inv in T. destruct T as [D1 [L1 [U1 [D3 [L3 M]]]]].
  cbn [seq_of words alt_of map]. unfold time_text.
  apply (hd_seq true _ _ _ [] h (String ":" (m ++ String " " (mer ++ post)))
           [(None, mer)] (":" ++ m ++ " " ++ mer)%string post).
  { apply hd_digits; auto. intros h0 Hh. inversion Hh; subst. assumption. }
  apply (hd_seq true _ _ (":" ++ (m ++ String " " (mer ++ post)))%string
           [] ":"%string (m ++ String " " (mer ++ post))%string
           [(None, mer)] (m ++ " " ++ mer)%string post).
  { apply hd_lit_fold. reflexivity. }
  apply (hd_seq true _ _ _ [] m (String " " (mer ++ post))
           [(None, mer)] (" " ++ mer)%string post).
  { apply hd_digits; auto; [lia|]. intros h0 Hh. inversion Hh; subst. lia. }
  apply (hd_seq true _ _ (" " ++ (mer ++ post))%string
           [] " "%string (mer ++ post)%string [(None, mer)] mer post).
  { apply hd_lit_fold. reflexivity. }
  destruct M as [-> | ->]; reflexivity.
Qed.

Lemma next_token_time h m mer post :
  time_like h m mer = true ->
  next_token TOKEN_PATTERNS (time_text h m mer ++ post)
  = Some (("TIME", time_text h m mer), post).
Proof.
  intro T. pose proof (hd_TIME h m mer post T) as HD.
  rewrite time_text_app.
  apply time_like_inv in T. destruct T as [D1 [L1 _]].
  destruct h as [|c h]; [simpl in L1; lia|].
  simpl in D1. apply andb_prop in D1. destruct D1 as [Hc _].
  simpl append in *. unfold TOKEN_PATTERNS.
  do 5 (rewrite next_token_skip
         by (apply rmatch_digit_start; [reflexivity|reflexivity|exact Hc])).
  apply next_token_hit with (c := [(None, mer)]). exact HD.
Qed.

Lemma TIME_not_on_interval n unit post :
  all_digits n = true ->
  rmatch true
    (seq_of [Digits 1 (Some 2); Lit ":"; Digits 2 (Some 2); Lit " ";
             Group None (words ["AM"; "PM"])])
    (n ++ String " " (unit ++ post)) = [].
Proof.
  intro Dn. cbn [seq_of words alt_of map].
  apply nil_of_no_in. intros [[c t] rest] H.
  apply in_rmatch_seq in H. destruct H as [c1 [t1 [s1 [c1' [t1' [H1 [H [-> ->]]]]]]]].
  apply in_rmatch_seq in H. destruct H as [c2 [t2 [s2 [c2' [t2' [H2 [_ _]]]]]]].
  apply in_rmatch_digits in H1; [|lia]. destruct H1 as [_ [E [D1 _]]].
  apply in_rmatch_lit_fold in H2. destruct H2 as [_ [-> F2]].
  apply fold_str_single_nonletter in F2; [|reflexivity|reflexivity]. subst t2.
  destruct (digits_then_unique n t1 " " _ ":" _ Dn D1 eq_refl eq_refl E) as [_ [X _]].
  discriminate X.
Qed.

Lemma hd_TIME_INTERVAL n unit post :
  interval_like n unit = true ->
  hd_error (rmatch true
              (seq_of [Digits 1 None; Lit " ";
                       Group None (words ["seconds"; "minutes"; "hours"])])
              (n ++ String " " (unit ++ post)))
  = Some ([(None, unit)], interval_text n unit, post).
Proof.
  intro T. apply interval_like_inv in T. destruct T as [D1 [L1 U]].
  cbn [seq_of words alt_of map]. unfold interval_text.
  apply (hd_seq true _ _ _ [] n (String " " (unit ++ post))
           [(None, unit)] (" " ++ unit)%string post).
  { apply hd_digits; auto. discriminate. }
  apply (hd_seq true _ _ (" " ++ (unit ++ post))%string
           [] " "%string (unit ++ post)%string [(None, unit)] unit post).
  { apply hd_lit_fold. reflexivity. }
  destruct U as [->|[->| ->]]; reflexivity.
Qed.

Lemma next_token_interval n unit post :
  interval_like n unit = true ->
  next_token TOKEN_PATTERNS (interval_text n unit ++ post)
  = Some (("TIME_INTERVAL", interval_text n unit), post).
Proof.
  intro T. pose proof (hd_TIME_INTERVAL n unit post T) as HD.
  rewrite interval_text_app.
  apply interval_like_inv in T. destruct T as [D1 [L1 _]].
  pose proof (TIME_not_on_interval n unit post D1) as NT.
  destruct n as [|c n]; [simpl in L1; lia|].
  simpl in D1. apply andb_prop in D1. destruct D1 as [Hc _].
  simpl append in *. unfold TOKEN_PATTERNS.
  do 5 (rewrite next_token_skip
         by (apply rmatch_digit_start; [reflexivity|reflexivity|exact Hc])).
  rewrite next_token_skip by exact NT.
  apply next_token_hit with (c := [(None, unit)]). exact HD.
Qed.

(** * Patterns that can match at the same place *)

Lemma pattern_matches_in r s :
  pattern_matches r s = true -> exists m, In m (rmatch true r s).
Proof.
  unfold pattern_matches, match_at. destruct (rmatch true r s) as [|m l]; [discriminate|].
  intros _. exists m. left. reflexivity.
Qed.

Lemma literals_sound r : forall ws s m,
  literals r = Some ws -> In m (rmatch true r s) ->
  existsb (fun w => ci_prefix w s) ws = true.
Proof.
  induction r as [lit|lo hi|r1 IH1 r2 IH2|r1 IH1 r2 IH2|name r1 IH1];
    intros ws s m L H; simpl in L; try discriminate.
  - inversion L; subst. cbn [rmatch] in H. simpl. unfold ci_prefix.
    destruct (lit_split true lit s); [reflexivity|contradiction].
  - destruct (literals r1) as [a|]; [|discriminate].
    destruct (literals r2) as [b|]; [|discriminate]. inversion L; subst.
    rewrite existsb_app. apply in_rmatch_alt in H. destruct H as [H|H].
    + rewrite (IH1 _ _ _ eq_refl H). reflexivity.
    + rewrite (IH2 _ _ _ eq_refl H). apply orb_true_r.
  - destruct m as [[c t] rest]. apply in_rmatch_group in H.
    destruct H as [c1 [H _]]. eauto.
Qed.

Lemma digit_led_sound ic r : forall s m,
  digit_led r = true -> In m (rmatch ic r s) ->
  match s with EmptyString => false | String c _ => is_digit c end = true.
Proof.
  induction r as [lit|lo hi|r1 IH1 r2 IH2|r1 IH1 r2 IH2|name r1 IH1];
    intros s m L H; simpl in L; try discriminate.
  - destruct m as [[c t] rest]. cbn [rmatch] in H. apply in_map_iff in H.
    destruct H as [[t' rest'] [Heq Hin]]. inversion Heq; subst.
    destruct (digit_splits_app _ _ _ _ _ _ Hin) as [-> [Hd Hl]].
    destruct lo; [discriminate|]. destruct t as [|a t]; simpl in *; [lia|].
    apply andb_prop in Hd. tauto.
  - destruct m as [[c t] rest]. apply in_rmatch_seq in H.
    destruct H as [c1 [t1 [s1 [c2 [t2 [H1 _]]]]]]. eauto.
  - apply andb_prop in L. destruct L. apply in_rmatch_alt in H. destruct H; eauto.
  - destruct m as [[c t] rest]. apply in_rmatch_group in H.
    destruct H as [c1 [H _]]. eauto.
Qed.

Lemma ci_prefix_comparable w1 : forall w2 s,
  ci_prefix w1 s = true -> ci_prefix w2 s = true -> clash w1 w2 = true.
Proof.
  unfold clash, ci_prefix.
  induction w1 as [|a w1 IH]; intros w2 s H1 H2.
  - reflexivity.
  - destruct w2 as [|b w2]; [apply orb_true_r|].
    destruct s as [|c s]; [discriminate|].
    cbn [lit_split] in *. unfold chr_eqb in *.
    destruct (Ascii.eqb_spec (fold_case a) (fold_case c)) as [Ea|]; [|discriminate].
    destruct (Ascii.eqb_spec (fold_case b) (fold_case c)) as [Eb|]; [|discriminate].
    destruct (Ascii.eqb_spec (fold_case a) (fold_case b)); [|congruence].
    destruct (Ascii.eqb_spec (fold_case b) (fold_case a)); [|congruence].
    specialize (IH w2 s).
    destruct (lit_split true w1 s) as [[? ?]|]; [|discriminate].
    destruct (lit_split true w2 s) as [[? ?]|]; [|discriminate].
    specialize (IH eq_refl eq_refl).
    destruct (lit_split true w1 w2) as [[? ?]|]; [reflexivity|].
    destruct (lit_split true w2 w1) as [[? ?]|]; [apply orb_true_r|discriminate].
Qed.

Lemma words_clash_sound ws1 ws2 s :
  existsb (fun w => ci_prefix w s) ws1 = true ->
  existsb (fun w => ci_prefix w s) ws2 = true ->
  words_clash ws1 ws2 = true.
Proof.
  intros H1 H2. apply existsb_exists in H1, H2.
  destruct H1 as [w1 [I1 P1]]. destruct H2 as [w2 [I2 P2]].
  unfold words_clash. apply existsb_exists. exists w1. split; [assumption|].
  apply existsb_exists. exists w2. split; [assumption|].
  apply (ci_prefix_comparable _ _ _ P1 P2).
Qed.

Lemma digit_word_sound ws c s :
  is_digit c = true ->
  existsb (fun w => ci_prefix w (String c s)) ws = true ->
  existsb digit_word ws = true.
Proof.
  intros Hc H. apply existsb_exists in H. destruct H as [w [I P]].
  apply existsb_exists. exists w. split; [assumption|].
  destruct w as [|a w]; [reflexivity|]. simpl.
  unfold ci_prefix in P. cbn [lit_split] in P.
  destruct (is_digit a) eqn:Ha; [reflexivity|].
  rewrite (chr_eqb_digit true a c Ha Hc) in P. discriminate.
Qed.

Lemma overlap_possible_sound r1 r2 s :
  pattern_matches r1 s = true -> pattern_matches r2 s = true ->
  overlap_possible r1 r2 = true.
Proof.
  intros H1 H2. apply pattern_matches_in in H1, H2.
  destruct H1 as [m1 H1]. destruct H2 as [m2 H2].
  unfold overlap_possible.
  destruct (literals r1) as [ws1|] eqn:L1; destruct (literals r2) as [ws2|] eqn:L2.
  - apply (words_clash_sound _ _ s); eapply literals_sound; eauto.
  - destruct (digit_led r2) eqn:D; [|reflexivity].
    pose proof (digit_led_sound _ _ _ _ D H2) as Hs.
    destruct s as [|c s]; [discriminate|].
    apply (digit_word_sound _ c s Hs). eapply literals_sound; eauto.
  - destruct (digit_led r1) eqn:D; [|reflexivity].
    pose proof (digit_led_sound _ _ _ _ D H1) as Hs.
    destruct s as [|c s]; [discriminate|].
    apply (digit_word_sound _ c s Hs). eapply literals_sound; eauto.
  - reflexivity.
Qed.

Lemma table_pairs_ok :
  forallb (fun kp1 => forallb (pair_ok kp1) TOKEN_PATTERNS) TOKEN_PATTERNS = true.
Proof. vm_compute. reflexivity. Qed.

Lemma TIME_pattern_shape s m :
  In m (rmatch true
          (seq_of [Digits 1 (Some 2); Lit ":"; Digits 2 (Some 2); Lit " ";
                   Group None (words ["AM"; "PM"])]) s) ->
  exists d x, all_digits d = true /\ s = (d ++ String ":" x)%string.
Proof.
  cbn [seq_of words alt_of map]. destruct m as [[c t] rest]. intro H.
  apply in_rmatch_seq in H. destruct H as [c1 [t1 [s1 [c1' [t1' [H1 [H [-> ->]]]]]]]].
  apply in_rmatch_seq in H. destruct H as [c2 [t2 [s2 [c2' [t2' [H2 [_ _]]]]]]].
  apply in_rmatch_digits in H1; [|lia]. destruct H1 as [_ [E [D1 _]]].
  apply in_rmatch_lit_fold in H2. destruct H2 as [_ [-> F2]].
  apply fold_str_single_nonletter in F2; [|reflexivity|reflexivity]. subst t2.
  exists t1, s2. auto.
Qed.

Lemma TIME_INTERVAL_pattern_shape s m :
  In m (rmatch true
          (seq_of [Digits 1 None; Lit " ";
                   Group None (words ["seconds"; "minutes"; "hours"])]) s) ->
  exists d x, all_digits d = true /\ s = (d ++ String " " x)%string.
Proof.
  cbn [seq_of words alt_of map]. destruct m as [[c t] rest]. intro H.
  apply in_rmatch_seq in H. destruct H as [c1 [t1 [s1 [c1' [t1' [H1 [H [-> ->]]]]]]]].
  apply in_rmatch_seq in H. destruct H as [c2 [t2 [s2 [c2' [t2' [H2 [_ _]]]]]]].
  apply in_rmatch_digits_plus in H1. destruct H1 as [_ [E [D1 _]]].
  apply in_rmatch_lit_fold in H2. destruct H2 as [_ [-> F2]].
  apply fold_str_single_nonletter in F2; [|reflexivity|reflexivity]. subst t2.
  exists t1, s2. auto.
Qed.

Lemma time_patterns_disjoint k1 r1 k2 r2 s :
  In (k1, r1) TOKEN_PATTERNS -> In (k2, r2) TOKEN_PATTERNS ->
  time_pair k1 k2 = true ->
  pattern_matches r1 s = true -> pattern_matches r2 s = true -> False.
Proof.
  intros I1 I2 TP M1 M2.
  apply pattern_matches_in in M1, M2. destruct M1 as [m1 M1]. destruct M2 as [m2 M2].
  assert (X : forall ra rb ma mb,
             In ma (rmatch true ra s) -> In mb (rmatch true rb s) ->
             In ("TIME", ra) TOKEN_PATTERNS -> In ("TIME_INTERVAL", rb) TOKEN_PATTERNS ->
             False).
  { intros ra rb ma mb Ma Mb Ia Ib.
    unfold TOKEN_PATTERNS in Ia, Ib. cbn [In] in Ia, Ib.
    repeat (destruct Ia as [Ia|Ia]; [try discriminate Ia|]); try contradiction.
    repeat (destruct Ib as [Ib|Ib]; [try discriminate Ib|]); try contradiction.
    inversion Ia; subst ra. inversion Ib; subst rb.
    apply TIME_pattern_shape in Ma. apply TIME_INTERVAL_pattern_shape in Mb.
    destruct Ma as [d1 [x1 [D1 E1]]]. destruct Mb as [d2 [x2 [D2 E2]]].
    rewrite E1 in E2.
    destruct (digits_then_unique d1 d2 ":" _ " " _ D1 D2 eq_refl eq_refl E2) as [_ [X _]].
    discriminate X. }
  unfold time_pair in TP. apply orb_prop in TP.
  destruct TP as [TP|TP]; apply andb_prop in TP; destruct TP as [T1 T2];
    apply String.eqb_eq in T1, T2; subst; eauto.
Qed.

(** * The order of the table *)

Lemma overlapping_pairs s k1 r1 k2 r2 :
  In (k1, r1) TOKEN_PATTERNS -> In (k2, r2) TOKEN_PATTERNS ->
  pattern_matches r1 s = true -> pattern_matches r2 s = true ->
  k1 = k2 \/ known_overlap k1 k2 = true.
Proof.
  intros I1 I2 M1 M2.
  pose proof table_pairs_ok as T.
  rewrite forallb_forall in T. specialize (T _ I1).
  rewrite forallb_forall in T. specialize (T _ I2).
  unfold pair_ok in T. cbn [fst snd] in T.
  apply orb_prop in T. destruct T as [T|T].
  - apply orb_prop in T. destruct T as [T|T].
    + apply orb_prop in T. destruct T as [T|T]; [|auto].
      left. apply String.eqb_eq, T.
    + exfalso. apply (time_patterns_disjoint _ _ _ _ s I1 I2 T M1 M2).
  - apply negb_true_iff in T.
    rewrite (overlap_possible_sound _ _ s M1 M2) in T. discriminate.
Qed.

Lemma TOKEN_PATTERNS_functional k r r' :
  In (k, r) TOKEN_PATTERNS -> In (k, r') TOKEN_PATTERNS -> r = r'.
Proof.
  intros I1 I2. unfold TOKEN_PATTERNS in I1, I2. cbn [In] in I1, I2.
  repeat (destruct I1 as [I1|I1];
          [inversion I1; subst; clear I1;
           repeat (destruct I2 as [I2|I2];
                   [first [discriminate I2 | inversion I2; reflexivity]|]);
           contradiction|]).
  contradiction.
Qed.

Lemma known_overlap_family k1 k2 :
  known_overlap k1 k2 = true ->
  (mem k1 word_family = true /\ mem k2 word_family = true)
  \/ (mem k1 digit_family = true /\ mem k2 digit_family = true).
Proof.
  unfold known_overlap. cbn [existsb fst snd]. intro H.
  repeat (apply orb_prop in H; destruct H as [H|H]);
    try discriminate H;
    apply andb_prop in H; destruct H as [H1 H2];
    apply String.eqb_eq in H1, H2; subst; auto.
Qed.

Lemma next_token_winner ps s :
  next_token ps s =
  match winner ps s with
  | Some kp =>
      match rmatch true (snd kp) s with
      | (_, t, rest) :: _ => Some ((fst kp, t), rest)
      | [] => None
      end
  | None => None
  end.
Proof.
  unfold winner. induction ps as [|kp ps IH]; [reflexivity|].
  cbn [next_token filter]. unfold pattern_matches at 1, match_at.
  destruct (rmatch true (snd kp) s) as [|[[c t] rest] l] eqn:E; cbn [hd_error].
  - exact IH.
  - rewrite E. reflexivity.
Qed.

Lemma winner_in ps s kp :
  winner ps s = Some kp -> In kp ps /\ pattern_matches (snd kp) s = true.
Proof.
  unfold winner. intro H.
  assert (X : In kp (filter (fun kp => pattern_matches (snd kp) s) ps)).
  { destruct (filter (fun kp => pattern_matches (snd kp) s) ps); [discriminate|].
    inversion H. left. reflexivity. }
  apply filter_In in X. exact X.
Qed.

Lemma winner_none ps s :
  winner ps s = None ->
  forall kp, In kp ps -> pattern_matches (snd kp) s = false.
Proof.
  unfold winner. intros H kp I.
  destruct (pattern_matches (snd kp) s) eqn:E; [|reflexivity].
  assert (X : In kp (filter (fun kp => pattern_matches (snd kp) s) ps))
    by (apply filter_In; auto).
  destruct (filter (fun kp => pattern_matches (snd kp) s) ps); [contradiction|discriminate].
Qed.

Lemma hd_filter_filter {A} (f g : A -> bool) (l : list A) (w : A) :
  hd_error (filter f l) = Some w -> g w = true ->
  hd_error (filter f (filter g l)) = Some w.
Proof.
  induction l as [|a l IH]; intros H G; simpl in *; [discriminate|].
  destruct (f a) eqn:Fa.
  - simpl in H. inversion H; subst. rewrite G. simpl. rewrite Fa. reflexivity.
  - destruct (g a); simpl; [rewrite Fa|]; auto.
Qed.

Lemma winner_of_kinds kinds ps s kp :
  winner ps s = Some kp -> mem (fst kp) kinds = true ->
  winner (of_kinds kinds ps) s = Some kp.
Proof.
  unfold winner, of_kinds. intros H G.
  apply (hd_filter_filter _ (fun kp => mem (fst kp) kinds) _ _ H G).
Qed.

(** A reordering of the table that keeps the order inside the two
    families has the same winner at every place. *)
Lemma winner_reordered ps s :
  Permutation ps TOKEN_PATTERNS ->
  of_kinds word_family ps = of_kinds word_family TOKEN_PATTERNS ->
  of_kinds digit_family ps = of_kinds digit_family TOKEN_PATTERNS ->
  winner ps s = winner TOKEN_PATTERNS s.
Proof.
  intros P F1 F2.
  destruct (winner ps s) as [[k' r']|] eqn:W'; destruct (winner TOKEN_PATTERNS s) as [[k r]|] eqn:W.
  - destruct (winner_in _ _ _ W') as [I' M']. destruct (winner_in _ _ _ W) as [I M].
    apply (Permutation_in _ P) in I'. cbn [snd] in M, M'.
    destruct (overlapping_pairs s k r k' r' I I' M M') as [->|K].
    + rewrite (TOKEN_PATTERNS_functional _ _ _ I I'). reflexivity.
    + destruct (known_overlap_family _ _ K) as [[G G']|[G G']].
      * pose proof (winner_of_kinds word_family _ _ _ W' G') as X'.
        pose proof (winner_of_kinds word_family _ _ _ W G) as X.
        rewrite F1 in X'. congruence.
      * pose proof (winner_of_kinds digit_family _ _ _ W' G') as X'.
        pose proof (winner_of_kinds digit_family _ _ _ W G) as X.
        rewrite F2 in X'. congruence.
  - destruct (winner_in _ _ _ W') as [I' M'].
    apply (Permutation_in _ P) in I'.
    rewrite (winner_none _ _ W _ I') in M'. discriminate.
  - destruct (winner_in _ _ _ W) as [I M].
    apply (Permutation_in _ (Permutation_sym P)) in I.
    rewrite (winner_none _ _ W' _ I) in M. discriminate.
  - reflexivity.
Qed.

Lemma table_ok_perm ps ps' :
  Permutation ps ps' -> table_ok ps' = true -> table_ok ps = true.
Proof.
  intros P H. unfold table_ok in *. apply andb_prop in H. destruct H as [H1 H2].
  rewrite (Permutation_length P), H1. simpl.
  apply forallb_forall. intros x I. rewrite forallb_forall in H2.
  apply H2. apply (Permutation_in _ P), I.
Qed.

(** Two tables with the same first token at every place give the same
    tokens. *)
Lemma tokens_from_ext ps ps' :
  table_ok ps = true -> table_ok ps' = true ->
  (forall s, next_token ps s = next_token ps' s) ->
  forall s b, tokens_from ps b s = tokens_from ps' b s.
Proof.
  intros Hok Hok' Hft. unfold tokens_from.
  induction s as [|c s IH]; intro b.
  - fold (tokens_from ps b EmptyString). fold (tokens_from ps' b EmptyString).
    rewrite !tokens_from_nil by assumption. reflexivity.
  - destruct b as [|b]; [|simpl; apply IH].
    pose proof (match_at_compile ps (String c s) Hok) as M.
    pose proof (match_at_compile ps' (String c s) Hok') as M'.
    rewrite <- Hft in M'.
    cbn [finditer_from].
    destruct (next_token ps (String c s)) as [[kt rest]|].
    + destruct M as [caps [M1 M2]]. destruct M' as [caps' [M1' M2']].
      rewrite M1, M1'. cbn [map]. rewrite M2, M2', IH. reflexivity.
    + rewrite M, M'. apply IH.
Qed.

Lemma tokenize_with_reordered ps :
  Permutation ps TOKEN_PATTERNS ->
  of_kinds word_family ps = of_kinds word_family TOKEN_PATTERNS ->
  of_kinds digit_family ps = of_kinds digit_family TOKEN_PATTERNS ->
  forall s, tokenize_with ps s = tokenize s.
Proof.
  intros P F1 F2 s.
  change (tokens_from ps 0 s = tokens_from TOKEN_PATTERNS 0 s).
  apply tokens_from_ext.
  - apply (table_ok_perm _ _ P). reflexivity.
  - reflexivity.
  - intro s'. rewrite !next_token_winner, (winner_reordered ps s' P F1 F2). reflexivity.
Qed.

(** * The kinds of the tokens *)

Lemma next_token_key ps : forall s k t rest,
  next_token ps s = Some ((k, t), rest) -> In k (map fst ps).
Proof.
  induction ps as [|kp ps IH]; intros s k t rest H; simpl in H; [discriminate|].
  destruct (rmatch true (snd kp) s) as [|[[c0 t0] rest0] l].
  - right. eauto.
  - inversion H; subst. left. reflexivity.
Qed.

Lemma tokens_from_keys ps :
  table_ok ps = true ->
  forall s b t, In t (tokens_from ps b s) -> In (fst t) (map fst ps).
Proof.
  intros Hok. unfold tokens_from.
  induction s as [|c s IH]; intros b t H.
  - fold (tokens_from ps b EmptyString) in H. rewrite tokens_from_nil in H by assumption.
    contradiction.
  - destruct b as [|b]; [|simpl in H; eauto].
    pose proof (match_at_compile ps (String c s) Hok) as M.
    cbn [finditer_from] in H.
    destruct (next_token ps (String c s)) as [[[k t0] rest]|] eqn:E.
    + destruct M as [caps [M1 M2]]. rewrite M1 in H. cbn [map] in H.
      destruct H as [H|H]; [|eauto].
      rewrite M2 in H. subst t. apply (next_token_key _ _ _ _ _ E).
    + rewrite M in H. eauto.
Qed.

Lemma tokenize_kinds command t :
  In t (tokenize command) -> In (fst t) (map fst TOKEN_PATTERNS).
Proof. apply tokens_from_keys. reflexivity. Qed.

Lemma not_a_kind command w :
  ~ In w (map fst TOKEN_PATTERNS) -> mem w (map fst (tokenize command)) = false.
Proof.
  intros Hw. unfold mem.
  destruct (existsb (String.eqb w) (map fst (tokenize command))) eqn:E; [|reflexivity].
  exfalso. apply existsb_exists in E. destruct E as [x [I X]].
  apply String.eqb_eq in X. subst x.
  apply in_map_iff in I. destruct I as [t [<- I]].
  apply Hw. apply (tokenize_kinds command t I).
Qed.

(** * Theorems *)

(** ** Evaluations on the commands of the specification *)

(** C1: each of the five canonical commands tokenizes to the kind sequence
    of its shape, and [validate_syntax] accepts it with the message
    "Valid command.". *)
Theorem canonical_commands_valid :
  (map fst (tokenize "on motion detected then turn on lights")
     = ["EVENT"; "SENSOR"; "DETECTED"; "THEN"; "OPERATION"; "DEVICE"]
   /\ validate_syntax (tokenize "on motion detected then turn on lights")
     = (true, "Valid command."))
  /\ (map fst (tokenize "schedule turn on watering at 6:00 AM")
        = ["EVENT"; "OPERATION"; "DEVICE"; "AT"; "TIME"]
      /\ validate_syntax (tokenize "schedule turn on watering at 6:00 AM")
        = (true, "Valid command."))
  /\ (map fst (tokenize "if temperature > 30 then turn on AC")
        = ["EVENT"; "SENSOR"; "OPERATOR"; "NUMBER"; "THEN"; "OPERATION"; "DEVICE"]
      /\ validate_syntax (tokenize "if temperature > 30 then turn on AC")
        = (true, "Valid command."))
  /\ (map fst (tokenize "repeat check temperature every 10 minutes")
        = ["EVENT"; "OPERATION"; "SENSOR"; "EVERY"; "TIME_INTERVAL"]
      /\ validate_syntax (tokenize "repeat check temperature every 10 minutes")
        = (true, "Valid command."))
  /\ (map fst (tokenize "activate night mode from 10:00 PM to 6:00 AM")
        = ["EVENT"; "MODE"; "FROM_TO"; "TIME"; "FROM_TO"; "TIME"]
      /\ validate_syntax (tokenize "activate night mode from 10:00 PM to 6:00 AM")
        = (true, "Valid command.")).
Proof. repeat split; vm_compute; reflexivity. Qed.

(** C8: "if temperature > 30 start AC" is invalid; its kinds include
    OPERATOR and NUMBER but not THEN; the chain answers with the
    then-required message of rule (c), not with the missing-value message
    of rule (b), whose condition does not hold. *)
Theorem if_without_then_reports_then :
  let command := "if temperature > 30 start AC" in
  let tokens := tokenize command in
  map fst tokens = ["EVENT"; "SENSOR"; "OPERATOR"; "NUMBER"; "OPERATION"; "DEVICE"]
  /\ fst (validate_syntax tokens) = false
  /\ mem "OPERATOR" (map fst tokens) = true
  /\ mem "NUMBER" (map fst tokens) = true
  /\ mem "THEN" (map fst tokens) = false
  /\ (mem "OPERATOR" (map fst tokens) && negb (mem "NUMBER" (map fst tokens))) = false
  /\ FlowScriptX.validate_invalid_command command tokens = msg_then_if
  /\ msg_then_if <> msg_missing_value
  /\ FlowScriptX.main_loop_row command = (false, msg_then_if).
Proof.
  cbv zeta. repeat split; try (vm_compute; reflexivity).
  intro H; discriminate H.
Qed.

(** C2 (the program departs from the claim): the command below does not
    fit its shape, its raw text contains "if", and its tokens do contain a
    THEN token; both files still answer with the then-required message of
    rule (c).  The rule looks for the lower-case text "then" among the
    kind names, which are upper-case: on the tokens of any command the
    test "no then" holds, whether a THEN token is present or not. *)
Theorem then_rule_ignores_then_token :
  forall command : string,
    mem "then" (map fst (tokenize command)) = false
    /\ (let command := "if temperature > 30 then turn on" in
        let tokens := tokenize command in
        tokens = [("EVENT", "if"); ("SENSOR", "temperature"); ("OPERATOR", ">");
                  ("NUMBER", "30"); ("THEN", "then"); ("OPERATION", "turn on")]
        /\ fst (validate_syntax tokens) = false
        /\ contains "when" command = false
        /\ (mem "OPERATOR" (map fst tokens) && negb (mem "NUMBER" (map fst tokens)))
           = false
        /\ contains "if" command = true
        /\ mem "THEN" (map fst tokens) = true
        /\ FlowScriptX.validate_invalid_command command tokens = msg_then_if
        /\ flowscript2.validate_invalid_command command tokens = msg_then_if
        /\ FlowScriptX.main_loop_row command = (false, msg_then_if)).
Proof.
  intro command. split.
  - apply not_a_kind. cbv [TOKEN_PATTERNS map fst In].
    intro H. repeat (destruct H as [H|H]; [discriminate H|]). exact H.
  - cbv zeta. repeat split; vm_compute; reflexivity.
Qed.

(** ** The operators [>=] and [<=] *)

(** C10 (amended): wherever [>=] (resp. [<=]) occurs, the tokenizer emits
    there one OPERATOR token with lexeme [>] (resp. [<]) and goes on with
    the [=].  When another [=] follows, the two [=] form an OPERATOR token
    [==]; otherwise the [=] is dropped, and the text tokenizes as its [>]
    (resp. [<]) variant.  "if temperature >= 30 then turn on AC" is
    valid. *)
Theorem two_char_operator_read_as_one_char :
  forall pre post : string,
    tokenize (pre ++ ">=" ++ post)
    = tokenize pre ++ ("OPERATOR", ">") :: tokenize ("=" ++ post)
    /\ tokenize (pre ++ "<=" ++ post)
       = tokenize pre ++ ("OPERATOR", "<") :: tokenize ("=" ++ post)
    /\ tokenize (pre ++ ">=" ++ "=" ++ post)
       = tokenize pre ++ ("OPERATOR", ">") :: ("OPERATOR", "==") :: tokenize post
    /\ tokenize (pre ++ "<=" ++ "=" ++ post)
       = tokenize pre ++ ("OPERATOR", "<") :: ("OPERATOR", "==") :: tokenize post
    /\ (prefix "=" post = false ->
        tokenize (pre ++ ">=" ++ post)
        = tokenize pre ++ ("OPERATOR", ">") :: tokenize post
        /\ tokenize (pre ++ "<=" ++ post)
           = tokenize pre ++ ("OPERATOR", "<") :: tokenize post
        /\ tokenize (pre ++ ">=" ++ post) = tokenize (pre ++ ">" ++ post)
        /\ tokenize (pre ++ "<=" ++ post) = tokenize (pre ++ "<" ++ post))
    /\ tokenize "if temperature >= 30 then turn on AC"
       = tokenize "if temperature > 30 then turn on AC"
    /\ validate_syntax (tokenize "if temperature >= 30 then turn on AC")
       = (true, "Valid command.").
Proof.
  intros pre post.
  assert (G : forall x, tokenize (pre ++ ">=" ++ x)
                        = tokenize pre ++ ("OPERATOR", ">") :: tokenize ("=" ++ x)).
  { intro x. simpl append. rewrite tokenize_before_gt, tokenize_gt. reflexivity. }
  assert (L : forall x, tokenize (pre ++ "<=" ++ x)
                        = tokenize pre ++ ("OPERATOR", "<") :: tokenize ("=" ++ x)).
  { intro x. simpl append. rewrite tokenize_before_lt, tokenize_lt. reflexivity. }
  assert (E : tokenize ("=" ++ "=" ++ post) = ("OPERATOR", "==") :: tokenize post).
  { simpl append. apply tokenize_eq_eq. }
  split; [apply G|]. split; [apply L|].
  split; [rewrite G, E; reflexivity|]. split; [rewrite L, E; reflexivity|].
  split.
  { intro H.
    assert (D : tokenize ("=" ++ post) = tokenize post).
    { simpl append. apply tokenize_lone_eq, H. }
    split; [rewrite G, D; reflexivity|]. split; [rewrite L, D; reflexivity|].
    split.
    - rewrite G, D. simpl append. rewrite tokenize_before_gt, tokenize_gt. reflexivity.
    - rewrite L, D. simpl append. rewrite tokenize_before_lt, tokenize_lt. reflexivity. }
  split; vm_compute; reflexivity.
Qed.

Lemma two_char_operator_read_as_one_char_witness :
  prefix "=" " 30 then turn on AC" = false
  /\ tokenize ("if temperature " ++ ">=" ++ " 30 then turn on AC")
     = tokenize "if temperature " ++ ("OPERATOR", ">") :: tokenize " 30 then turn on AC".
Proof.
  split; [reflexivity|].
  exact (proj1 (proj1 (proj2 (proj2 (proj2 (proj2
           (two_char_operator_read_as_one_char
              "if temperature " " 30 then turn on AC"))))) eq_refl)).
Defined.

(** C10, as stated, fails when the [=] is followed by another [=]: the two
    are read as an OPERATOR token, so the [=] of [>=] is not dropped. *)
Lemma two_char_operator_counterexample :
  tokenize (">=" ++ "=") = [("OPERATOR", ">"); ("OPERATOR", "==")]
  /\ tokenize (">=" ++ "=") <> tokenize EmptyString ++ ("OPERATOR", ">") :: tokenize "="
  /\ tokenize (">=" ++ "=") <> tokenize (">" ++ "=").
Proof.
  split; [vm_compute; reflexivity|].
  split; vm_compute; intro H; discriminate H.
Qed.

(** ** Case *)

(** C6 (amended): every class is matched without regard to case,
    re.IGNORECASE being set for the whole compiled pattern: two texts that
    differ only in the case of their letters have the same kinds, and
    lexemes equal up to case.  A time written with lower-case am/pm is a
    TIME token, an interval with an upper-case unit a TIME_INTERVAL token. *)
Theorem tokenizer_ignores_case_in_every_class :
  forall s1 s2 : string,
    fold_str s1 = fold_str s2 ->
    map fst (tokenize s1) = map fst (tokenize s2)
    /\ map fold_token (tokenize s1) = map fold_token (tokenize s2)
    /\ tokenize "6:00 am" = [("TIME", "6:00 am")]
    /\ tokenize "10 MINUTES" = [("TIME_INTERVAL", "10 MINUTES")].
Proof.
  intros s1 s2 H.
  assert (E : map fold_token (tokenize s1) = map fold_token (tokenize s2)).
  { unfold tokenize. rewrite <- !tokenize_with_fold, H. reflexivity. }
  split; [|split; [exact E|split; vm_compute; reflexivity]].
  apply (f_equal (map fst)) in E. rewrite !map_map in E. exact E.
Qed.

Lemma tokenizer_ignores_case_in_every_class_witness :
  map fst (tokenize "at 6:00 AM") = map fst (tokenize "AT 6:00 am").
Proof.
  exact (proj1 (tokenizer_ignores_case_in_every_class "at 6:00 AM" "AT 6:00 am" eq_refl)).
Defined.

(** C6, as stated, fails: a time written with lower-case "am" is
    recognized as a TIME token. *)
Lemma lowercase_time_counterexample :
  mem "TIME" (map fst (tokenize "schedule turn on watering at 6:00 am")) = true
  /\ tokenize "6:00 am" = [("TIME", "6:00 am")]
  /\ validate_syntax (tokenize "schedule turn on watering at 6:00 am")
     = (true, "Valid command.").
Proof. repeat split; vm_compute; reflexivity. Qed.

(** ** The main loop and the two diagnostic chains *)

(** C4 (amended): when the text gives no token, [validate_syntax] answers
    invalid with "Empty command."; the main loop then runs the diagnostic
    chain all the same, on the raw text and the empty token list, and it is
    the chain's answer that is reported. *)
Theorem no_token_is_invalid_and_diagnosed :
  forall user_input : string,
    tokenize user_input = [] ->
    validate_syntax (tokenize user_input) = (false, "Empty command.")
    /\ FlowScriptX.main_loop_row user_input
       = (false, FlowScriptX.validate_invalid_command user_input [])
    /\ flowscript2.main_loop_row user_input
       = (false, flowscript2.validate_invalid_command user_input []).
Proof.
  intros user_input H.
  unfold FlowScriptX.main_loop_row, flowscript2.main_loop_row.
  rewrite H. repeat split.
Qed.

Lemma no_token_is_invalid_and_diagnosed_witness :
  validate_syntax (tokenize "hello") = (false, "Empty command.")
  /\ FlowScriptX.main_loop_row "hello"
     = (false, FlowScriptX.validate_invalid_command "hello" [])
  /\ flowscript2.main_loop_row "hello"
     = (false, flowscript2.validate_invalid_command "hello" []).
Proof. apply (no_token_is_invalid_and_diagnosed "hello"). vm_compute. reflexivity. Defined.

(** C4, as stated, fails: "when" gives no token, and the message reported
    for it is the answer of rule (a) of the chain, not "Empty command.";
    for the empty text it is the fallback of the chain. *)
Lemma no_token_counterexample :
  tokenize "when" = []
  /\ FlowScriptX.main_loop_row "when" = (false, msg_when)
  /\ flowscript2.main_loop_row "when" = (false, msg_when)
  /\ FlowScriptX.main_loop_row EmptyString = (false, msg_fallback)
  /\ msg_when <> "Empty command."
  /\ msg_fallback <> "Empty command.".
Proof.
  repeat split; try (vm_compute; reflexivity); intro H; discriminate H.
Qed.

(** C9 (amended): [FlowScriptX.py] has three rules that [flowscript2.py]
    lacks: the missing-value rule (b), the then-required rule for "on" (g)
    and the every-required rule (h).  The two chains return the same
    message exactly when the answer of [FlowScriptX.py] is none of the
    messages of these three rules. *)
Theorem chains_agree_outside_extra_rules :
  forall (command : string) (tokens : list token),
    FlowScriptX.validate_invalid_command command tokens
    = flowscript2.validate_invalid_command command tokens
    <->
    (FlowScriptX.validate_invalid_command command tokens <> msg_missing_value
     /\ FlowScriptX.validate_invalid_command command tokens <> msg_then_on
     /\ FlowScriptX.validate_invalid_command command tokens <> msg_every).
Proof.
  intros command tokens.
  unfold FlowScriptX.validate_invalid_command, flowscript2.validate_invalid_command.
  destruct (contains "when" command);
    [split; [intros _; repeat split; discriminate | reflexivity]|].
  destruct (mem "OPERATOR" (map fst tokens) && negb (mem "NUMBER" (map fst tokens))).
  { split.
    - intro E. exfalso.
      repeat match type of E with
             | _ = (if ?b then _ else _) => destruct b
             end; discriminate E.
    - intros [H _]. congruence. }
  destruct (contains "if" command && negb (mem "then" (map fst tokens)));
    [split; [intros _; repeat split; discriminate | reflexivity]|].
  destruct (existsb (is_token "OPERATION" "open") tokens
            && existsb (is_token "DEVICE" "lights") tokens);
    [split; [intros _; repeat split; discriminate | reflexivity]|].
  destruct (invalid_time command);
    [split; [intros _; repeat split; discriminate | reflexivity]|].
  destruct (contains "activate" command
            && (negb (contains "from" command) || negb (contains "to" command)));
    [split; [intros _; repeat split; discriminate | reflexivity]|].
  destruct (contains "on" command && negb (mem "then" (map fst tokens)));
    [split; [intro E; discriminate E | intros [_ [H _]]; congruence]|].
  destruct (contains "repeat" command && negb (mem "every" (map fst tokens)));
    [split; [intro E; discriminate E | intros [_ [_ H]]; congruence]|].
  split; [intros _; repeat split; discriminate | reflexivity].
Qed.

(** C9, as stated, fails: on the command "on" (one of the test commands of
    [flowscript2.py]) the two files answer differently. *)
Lemma chains_differ_counterexample :
  FlowScriptX.validate_invalid_command "on" (tokenize "on") = msg_then_on
  /\ flowscript2.validate_invalid_command "on" (tokenize "on") = msg_fallback
  /\ FlowScriptX.validate_invalid_command "on" (tokenize "on")
     <> flowscript2.validate_invalid_command "on" (tokenize "on").
Proof.
  split; [vm_compute; reflexivity|].
  split; [vm_compute; reflexivity|].
  vm_compute. intro H. discriminate H.
Qed.

(** ** The time check *)




(** ** Composite spans *)

(** C7 (amended): a span of the form H:MM AM/PM that is not immediately
    preceded by a digit is emitted as one TIME token, and a span of the
    form N seconds|minutes|hours that is not immediately preceded by a
    digit as one TIME_INTERVAL token; the tokens before the span are those
    of the text before it and the tokens after it those of the text after
    it, so no digit of the span is emitted as a NUMBER token. *)
Theorem composite_span_is_one_token :
  forall pre post : string,
    ends_with_digit pre = false ->
    (forall h m mer,
        time_like h m mer = true ->
        tokenize (pre ++ time_text h m mer ++ post)
        = tokenize pre ++ ("TIME", time_text h m mer) :: tokenize post)
    /\ (forall n unit,
           interval_like n unit = true ->
           tokenize (pre ++ interval_text n unit ++ post)
           = tokenize pre ++ ("TIME_INTERVAL", interval_text n unit) :: tokenize post).
Proof.
  intros pre post He. split.
  - intros h m mer T.
    pose proof (minutes_tail_not_on_time h m mer post T) as Hseam.
    pose proof (next_token_time h m mer post T) as FT.
    assert (Hs : exists c x, (time_text h m mer ++ post)%string = String c x
                             /\ is_digit c = true).
    { rewrite time_text_app. apply time_like_inv in T. destruct T as [D1 [L1 _]].
      destruct h as [|c h]; [simpl in L1; lia|].
      simpl in D1. apply andb_prop in D1. destruct D1 as [Hc _].
      eexists _, _. split; [reflexivity|exact Hc]. }
    destruct Hs as [c [x [Hs Hc]]]. rewrite Hs in *.
    rewrite (tokenize_before_digit_seam pre c x Hc Hseam He). f_equal.
    rewrite !tokenize_tokens_from. apply tokens_from_emit; [reflexivity|exact FT].
  - intros n unit T.
    pose proof (minutes_tail_not_on_interval n unit post T) as Hseam.
    pose proof (next_token_interval n unit post T) as FT.
    assert (Hs : exists c x, (interval_text n unit ++ post)%string = String c x
                             /\ is_digit c = true).
    { rewrite interval_text_app. apply interval_like_inv in T. destruct T as [D1 [L1 _]].
      destruct n as [|c n]; [simpl in L1; lia|].
      simpl in D1. apply andb_prop in D1. destruct D1 as [Hc _].
      eexists _, _. split; [reflexivity|exact Hc]. }
    destruct Hs as [c [x [Hs Hc]]]. rewrite Hs in *.
    rewrite (tokenize_before_digit_seam pre c x Hc Hseam He). f_equal.
    rewrite !tokenize_tokens_from. apply tokens_from_emit; [reflexivity|exact FT].
Qed.

Lemma composite_span_is_one_token_witness :
  tokenize ("schedule turn on watering at " ++ time_text "6" "00" "AM" ++ " now")
  = tokenize "schedule turn on watering at "
    ++ ("TIME", time_text "6" "00" "AM") :: tokenize " now"
  /\ tokenize ("repeat check temperature every " ++ interval_text "10" "minutes" ++ "!")
     = tokenize "repeat check temperature every "
       ++ ("TIME_INTERVAL", interval_text "10" "minutes") :: tokenize "!".
Proof.
  split.
  - apply (proj1 (composite_span_is_one_token
                    "schedule turn on watering at " " now" eq_refl)).
    reflexivity.
  - apply (proj2 (composite_span_is_one_token
                    "repeat check temperature every " "!" eq_refl)).
    reflexivity.
Defined.

(** C7, as stated, fails: in "123:45 PM" the span "23:45 PM" has the form
    H:MM AM/PM, but it follows a digit; no TIME token is emitted and its
    minutes are emitted as a NUMBER token. *)
Lemma span_after_digit_counterexample :
  time_like "23" "45" "PM" = true
  /\ tokenize ("1" ++ time_text "23" "45" "PM") = [("NUMBER", "123"); ("NUMBER", "45")]
  /\ mem "TIME" (map fst (tokenize ("1" ++ time_text "23" "45" "PM"))) = false
  /\ tokenize ("1" ++ time_text "23" "45" "PM")
     <> tokenize "1" ++ ("TIME", time_text "23" "45" "PM") :: tokenize EmptyString.
Proof.
  split; [reflexivity|]. split; [vm_compute; reflexivity|].
  split; [vm_compute; reflexivity|]. vm_compute. intro H. discriminate H.
Qed.

(** ** Ambiguous substrings and the order of the rules *)

(** C5 (amended): the rule set does have ambiguous substrings, of four
    kinds only: two different rules whose patterns can match at the same
    place are SENSOR and DEVICE ("door"), EVENT and DEVICE ("activate",
    whose first letters are also "AC"), TIME and NUMBER, or TIME_INTERVAL
    and NUMBER.  Hence the tokens do not depend on the declaration order
    of the rules as long as EVENT, SENSOR and DEVICE keep their order
    among themselves and TIME, TIME_INTERVAL and NUMBER keep theirs. *)
Theorem ambiguity_confined_to_four_pairs :
  forall ps : list (string * regex),
    Permutation ps TOKEN_PATTERNS ->
    of_kinds word_family ps = of_kinds word_family TOKEN_PATTERNS ->
    of_kinds digit_family ps = of_kinds digit_family TOKEN_PATTERNS ->
    (forall s k1 r1 k2 r2,
        In (k1, r1) ps -> In (k2, r2) ps ->
        pattern_matches r1 s = true -> pattern_matches r2 s = true ->
        k1 = k2 \/ known_overlap k1 k2 = true)
    /\ (forall s, tokenize_with ps s = tokenize s)
    /\ (pattern_matches (pattern_of "SENSOR") "door"
        && pattern_matches (pattern_of "DEVICE") "door") = true
    /\ (pattern_matches (pattern_of "EVENT") "activate"
        && pattern_matches (pattern_of "DEVICE") "activate") = true
    /\ (pattern_matches (pattern_of "TIME") "6:00 AM"
        && pattern_matches (pattern_of "NUMBER") "6:00 AM") = true
    /\ (pattern_matches (pattern_of "TIME_INTERVAL") "10 minutes"
        && pattern_matches (pattern_of "NUMBER") "10 minutes") = true.
Proof.
  intros ps P F1 F2. split; [|split; [|repeat split; vm_compute; reflexivity]].
  - intros s k1 r1 k2 r2 I1 I2 M1 M2.
    apply (Permutation_in _ P) in I1, I2.
    apply (overlapping_pairs s k1 r1 k2 r2); assumption.
  - apply tokenize_with_reordered; assumption.
Qed.

Lemma ambiguity_confined_to_four_pairs_witness :
  Permutation (swap_kinds "OPERATOR" "THEN" TOKEN_PATTERNS) TOKEN_PATTERNS
  /\ tokenize_with (swap_kinds "OPERATOR" "THEN" TOKEN_PATTERNS)
       "if temperature > 30 then turn on AC"
     = tokenize "if temperature > 30 then turn on AC".
Proof.
  assert (P : Permutation (swap_kinds "OPERATOR" "THEN" TOKEN_PATTERNS) TOKEN_PATTERNS).
  { cbv [swap_kinds TOKEN_PATTERNS map find fst snd String.eqb Ascii.eqb Bool.eqb].
    do 8 apply perm_skip. apply perm_swap. }
  split; [exact P|].
  exact (proj1 (proj2 (ambiguity_confined_to_four_pairs
                         (swap_kinds "OPERATOR" "THEN" TOKEN_PATTERNS)
                         P eq_refl eq_refl))
           "if temperature > 30 then turn on AC").
Defined.

(** C5, as stated, fails: at the start of "door" the patterns of SENSOR
    and of DEVICE both match, and the kind of the token emitted there
    depends on the declaration order: with the two rules exchanged it is
    DEVICE instead of SENSOR. *)
Lemma door_is_ambiguous_counterexample :
  pattern_matches (pattern_of "SENSOR") "door" = true
  /\ pattern_matches (pattern_of "DEVICE") "door" = true
  /\ tokenize "door" = [("SENSOR", "door")]
  /\ Permutation (swap_kinds "SENSOR" "DEVICE" TOKEN_PATTERNS) TOKEN_PATTERNS
  /\ tokenize_with (swap_kinds "SENSOR" "DEVICE" TOKEN_PATTERNS) "door"
     = [("DEVICE", "door")]
  /\ tokenize_with (swap_kinds "SENSOR" "DEVICE" TOKEN_PATTERNS) "door"
     <> tokenize "door".
Proof.
  split; [vm_compute; reflexivity|]. split; [vm_compute; reflexivity|].
  split; [vm_compute; reflexivity|]. split.
  { cbv [swap_kinds TOKEN_PATTERNS map find fst snd String.eqb Ascii.eqb Bool.eqb].
    apply perm_skip. apply perm_swap. }
  split; [vm_compute; reflexivity|]. vm_compute. intro H. discriminate H.
Qed.
(** * Where a token comes from *)

Lemma next_token_hd ps : forall s k t rest,
  next_token ps s = Some ((k, t), rest) ->
  exists r c, In (k, r) ps /\ hd_error (rmatch true r s) = Some (c, t, rest).
Proof.
  induction ps as [|kp ps IH]; intros s k t rest H; simpl in H; [discriminate|].
  destruct (rmatch true (snd kp) s) as [|[[c0 t0] rest0] l] eqn:E.
  - destruct (IH _ _ _ _ H) as [r [c [I Hd]]]. exists r, c. split; [right|]; assumption.
  - inversion H; subst. exists (snd kp), c0. split.
    + left. destruct kp; reflexivity.
    + rewrite E. reflexivity.
Qed.

Lemma hd_error_in {A} (l : list A) x : hd_error l = Some x -> In x l.
Proof. destruct l; [discriminate|]. intro H. inversion H. left. reflexivity. Qed.

(** Every token is the next token at some place of the text. *)
Lemma token_origin ps :
  table_ok ps = true ->
  forall s b kt,
    In kt (tokens_from ps b s) ->
    exists pre s' rest,
      s = (pre ++ s')%string /\ next_token ps s' = Some (kt, rest).
Proof.
  intros Hok. unfold tokens_from.
  induction s as [|c s IH]; intros b kt H.
  - fold (tokens_from ps b EmptyString) in H. rewrite tokens_from_nil in H by assumption.
    contradiction.
  - assert (Step : forall b', In kt (map token_of_match
                                       (finditer_from true (compile_patterns ps) b' s)) ->
                   exists pre s' rest,
                     String c s = (pre ++ s')%string /\ next_token ps s' = Some (kt, rest)).
    { intros b' H'. destruct (IH _ _ H') as [pre [s' [rest [E N]]]].
      exists (String c pre), s', rest. subst s. auto. }
    destruct b as [|b]; [|simpl in H; eauto].
    pose proof (match_at_compile ps (String c s) Hok) as M.
    cbn [finditer_from] in H.
    destruct (next_token ps (String c s)) as [[kt0 rest]|] eqn:E.
    + destruct M as [caps [M1 M2]]. rewrite M1 in H. cbn [map] in H.
      destruct H as [H|H]; [|eauto].
      rewrite M2 in H. subst kt0.
      exists EmptyString, (String c s), rest. auto.
    + rewrite M in H. eauto.
Qed.

Lemma tokenize_origin command k t :
  In (k, t) (tokenize command) ->
  exists pre s rest r c,
    command = (pre ++ s)%string /\ In (k, r) TOKEN_PATTERNS
    /\ hd_error (rmatch true r s) = Some (c, t, rest).
Proof.
  intro H. rewrite tokenize_tokens_from in H.
  destruct (token_origin _ TOKEN_PATTERNS_ok _ _ _ H) as [pre [s [rest [E N]]]].
  destruct (next_token_hd _ _ _ _ _ N) as [r [c [I Hd]]].
  exists pre, s, rest, r, c. auto.
Qed.

(** * The lexemes in the text *)

Lemma drop_append t : forall s, drop (String.length t) (t ++ s) = s.
Proof. induction t; intro s; simpl; auto. Qed.

Lemma tokens_from_embeds ps :
  table_ok ps = true ->
  forall s b, embeds (map snd (tokens_from ps b s)) (drop b s).
Proof.
  intros Hok. unfold tokens_from.
  induction s as [|c s IH]; intro b.
  - fold (tokens_from ps b EmptyString). rewrite tokens_from_nil by assumption.
    apply embeds_nil.
  - destruct b as [|b]; [|simpl; apply IH].
    pose proof (match_at_compile ps (String c s) Hok) as M.
    cbn [finditer_from drop].
    destruct (next_token ps (String c s)) as [[[k t] rest]|] eqn:E.
    + destruct M as [caps [M1 M2]]. simpl in M1. rewrite M1. cbn [map]. rewrite M2.
      assert (Hall : forallb (fun kp => nonnull (snd kp) && unnamed (snd kp)) ps = true).
      { unfold table_ok in Hok. apply andb_prop in Hok. tauto. }
      destruct (next_token_sound _ _ _ _ _ Hall E) as [Hs Hne].
      destruct t as [|c' t]; [congruence|].
      simpl in Hs. inversion Hs; subst c' s.
      cbn [snd]. change (String c (t ++ rest)) with (String c t ++ rest)%string.
      apply embeds_take.
      replace (String.length (String c t) - 1) with (String.length t)
        by (simpl; lia).
      specialize (IH (String.length t)).
      rewrite drop_append in IH. exact IH.
    + rewrite M. apply embeds_skip. apply (IH 0).
Qed.

Lemma embeds_total_length ls : forall s,
  embeds ls s -> total_length ls <= String.length s.
Proof.
  intros s H. induction H; simpl; try lia.
  rewrite length_append. lia.
Qed.

Lemma embeds_contains ls s : embeds ls s -> forall l, In l ls -> contains l s = true.
Proof.
  assert (P : forall l s, prefix l (l ++ s) = true).
  { induction l as [|a l IHl]; intro s0; simpl.
    - destruct s0; reflexivity.
    - destruct (ascii_dec a a); [apply IHl|congruence]. }
  assert (U : forall l s, contains l s
                           = prefix l s || match s with
                                           | EmptyString => false
                                           | String _ s' => contains l s'
                                           end).
  { intros l s0. destruct s0; reflexivity. }
  assert (C : forall l s, contains l (l ++ s) = true).
  { intros l s0. rewrite U, P. reflexivity. }
  induction 1 as [s|ls c s H IH|l0 ls s H IH]; intros l I.
  - contradiction.
  - simpl. rewrite (IH l I). apply orb_true_r.
  - destruct I as [->|I]; [apply C|].
    specialize (IH l I). clear -IH.
    induction l0 as [|a l0 IHl]; [exact IH|].
    simpl. rewrite IHl. apply orb_true_r.
Qed.

Lemma tokens_nonempty ps :
  table_ok ps = true ->
  forall s b kt, In kt (tokens_from ps b s) -> snd kt <> EmptyString.
Proof.
  intros Hok s b [k t] H.
  destruct (token_origin ps Hok s b (k, t) H) as [pre [s' [rest [E N]]]].
  assert (Hall : forallb (fun kp => nonnull (snd kp) && unnamed (snd kp)) ps = true).
  { unfold table_ok in Hok. apply andb_prop in Hok. tauto. }
  apply (next_token_sound _ _ _ _ _ Hall N).
Qed.

Lemma total_length_count ls :
  (forall l, In l ls -> l <> EmptyString) -> List.length ls <= total_length ls.
Proof.
  induction ls as [|l ls IH]; intro H; simpl; [lia|].
  assert (l <> EmptyString) by (apply H; left; reflexivity).
  assert (List.length ls <= total_length ls) by (apply IH; intros; apply H; right; assumption).
  destruct l; [congruence|simpl; lia].
Qed.

(** * The lexeme of each kind *)

Lemma literals_text r : forall ws s c t rest,
  literals r = Some ws -> In (c, t, rest) (rmatch true r s) ->
  In (fold_str t) (map fold_str ws).
Proof.
  induction r as [lit|lo hi|r1 IH1 r2 IH2|r1 IH1 r2 IH2|name r1 IH1];
    intros ws s c t rest L H; simpl in L; try discriminate.
  - inversion L; subst. apply in_rmatch_lit_fold in H. destruct H as [_ [_ F]].
    left. symmetry. exact F.
  - destruct (literals r1) as [a|]; [|discriminate].
    destruct (literals r2) as [b|]; [|discriminate]. inversion L; subst.
    rewrite map_app. apply in_or_app.
    apply in_rmatch_alt in H. destruct H as [H|H]; [left|right]; eauto.
  - apply in_rmatch_group in H. destruct H as [c1 [H _]]. eauto.
Qed.

Lemma in_TIME_pattern s c t rest :
  In (c, t, rest)
     (rmatch true
        (seq_of [Digits 1 (Some 2); Lit ":"; Digits 2 (Some 2); Lit " ";
                 Group None (words ["AM"; "PM"])]) s) ->
  exists h m mer,
    t = time_text h m mer
    /\ all_digits h = true /\ 1 <= String.length h /\ String.length h <= 2
    /\ all_digits m = true /\ String.length m = 2
    /\ (fold_str mer = "am" \/ fold_str mer = "pm").
Proof.
  cbn [seq_of words alt_of map]. intro H.
  apply in_rmatch_seq in H. destruct H as [c1 [t1 [s1 [c1' [t1' [H1 [H [-> ->]]]]]]]].
  apply in_rmatch_seq in H. destruct H as [c2 [t2 [s2 [c2' [t2' [H2 [H [-> ->]]]]]]]].
  apply in_rmatch_seq in H. destruct H as [c3 [t3 [s3 [c3' [t3' [H3 [H [-> ->]]]]]]]].
  apply in_rmatch_seq in H. destruct H as [c4 [t4 [s4 [c5 [t5 [H4 [H5 [-> ->]]]]]]]].
  apply in_rmatch_digits in H1; [|lia]. destruct H1 as [_ [_ [D1 [L1 U1]]]].
  apply in_rmatch_lit_fold in H2. destruct H2 as [_ [_ F2]].
  apply fold_str_single_nonletter in F2; [|reflexivity|reflexivity]. subst t2.
  apply in_rmatch_digits in H3; [|lia]. destruct H3 as [_ [_ [D3 [L3 U3]]]].
  apply in_rmatch_lit_fold in H4. destruct H4 as [_ [_ F4]].
  apply fold_str_single_nonletter in F4; [|reflexivity|reflexivity]. subst t4.
  apply in_rmatch_group in H5. destruct H5 as [c5' [H5 _]].
  exists t1, t3, t5. split; [reflexivity|].
  repeat split; auto; try lia.
  apply in_rmatch_alt in H5. destruct H5 as [H5|H5];
    apply in_rmatch_lit_fold in H5; destruct H5 as [_ [_ F5]]; auto.
Qed.

Lemma in_TIME_INTERVAL_pattern s c t rest :
  In (c, t, rest)
     (rmatch true
        (seq_of [Digits 1 None; Lit " ";
                 Group None (words ["seconds"; "minutes"; "hours"])]) s) ->
  exists n u,
    t = interval_text n u
    /\ all_digits n = true /\ 1 <= String.length n
    /\ In (fold_str u) ["seconds"; "minutes"; "hours"].
Proof.
  cbn [seq_of words alt_of map]. intro H.
  apply in_rmatch_seq in H. destruct H as [c1 [t1 [s1 [c1' [t1' [H1 [H [-> ->]]]]]]]].
  apply in_rmatch_seq in H. destruct H as [c2 [t2 [s2 [c3 [t3 [H2 [H3 [-> ->]]]]]]]].
  apply in_rmatch_digits_plus in H1. destruct H1 as [_ [_ [D1 L1]]].
  apply in_rmatch_lit_fold in H2. destruct H2 as [_ [_ F2]].
  apply fold_str_single_nonletter in F2; [|reflexivity|reflexivity]. subst t2.
  apply in_rmatch_group in H3. destruct H3 as [c3' [H3 _]].
  exists t1, t3. split; [reflexivity|]. repeat split; auto.
  apply (literals_text (Alt (Lit "seconds") (Alt (Lit "minutes") (Lit "hours")))
           _ _ _ _ _ eq_refl H3).
Qed.

Lemma chr_eqb_nonletter_eq (a c : ascii) :
  is_upper a = false ->
  (97 <=? nat_of_ascii a) && (nat_of_ascii a <=? 122) = false ->
  chr_eqb true a c = true -> c = a.
Proof.
  intros Hu Hl H. unfold chr_eqb in H.
  rewrite fold_case_eq_nonletter in H by assumption.
  apply Ascii.eqb_eq in H. congruence.
Qed.

Lemma hd_OPERATOR s c t rest :
  hd_error (rmatch true (words [">"; "<"; ">="; "<="; "=="]) s) = Some (c, t, rest) ->
  t = ">" \/ t = "<" \/ t = "==".
Proof.
  unfold words. cbn [map alt_of rmatch].
  destruct s as [|a s]; [discriminate|].
  cbn [lit_split].
  destruct (chr_eqb true ">" a) eqn:E1.
  { apply chr_eqb_nonletter_eq in E1; [|reflexivity|reflexivity]. subst a.
    cbn. intro H. inversion H. auto. }
  destruct (chr_eqb true "<" a) eqn:E2.
  { apply chr_eqb_nonletter_eq in E2; [|reflexivity|reflexivity]. subst a.
    cbn. intro H. inversion H. auto. }
  destruct (chr_eqb true "=" a) eqn:E3; [|discriminate].
  apply chr_eqb_nonletter_eq in E3; [|reflexivity|reflexivity]. subst a.
  destruct s as [|b s]; [discriminate|].
  destruct (chr_eqb true "=" b) eqn:E4; [|discriminate].
  apply chr_eqb_nonletter_eq in E4; [|reflexivity|reflexivity]. subst b.
  cbn. intro H. inversion H. auto.
Qed.

(** * Characters that no pattern reads *)

Lemma separator_avoids c : separator c = true -> avoids true c TOKEN_REGEX = true.
Proof.
  intro H.
  destruct c as [[] [] [] [] [] [] [] []];
    try (vm_compute in H; discriminate H); vm_compute; reflexivity.
Qed.

Lemma tokenize_separator c pre post :
  separator c = true ->
  tokenize (pre ++ String c post) = tokenize pre ++ tokenize post.
Proof.
  intro H. pose proof (separator_avoids c H) as A.
  rewrite !tokenize_tokens_from.
  rewrite tokens_from_app;
    [|reflexivity|intros a p _ _; apply rmatch_avoids; exact A].
  f_equal. apply tokens_from_skip; [reflexivity|].
  pose proof (match_at_compile TOKEN_PATTERNS (String c post) TOKEN_PATTERNS_ok) as M.
  destruct (next_token TOKEN_PATTERNS (String c post)) as [[kt rest]|]; [|reflexivity].
  destruct M as [caps [M _]]. exfalso.
  pose proof (rmatch_avoids true c post TOKEN_REGEX A EmptyString) as L.
  unfold local in L. simpl append in L.
  rewrite rmatch_nil_nonnull in L by reflexivity.
  unfold match_at in M. fold TOKEN_REGEX in M. rewrite L in M. discriminate M.
Qed.

(** * Case and the verdict *)

Lemma chr_lower_fold_case c : chr_lower (fold_case c) = chr_lower c.
Proof. destruct c as [[] [] [] [] [] [] [] []]; reflexivity. Qed.

Lemma lower_fold_str s : lower (fold_str s) = lower s.
Proof. induction s; simpl; [reflexivity|]. rewrite chr_lower_fold_case. congruence. Qed.

Lemma validate_syntax_fold tokens :
  validate_syntax (map fold_token tokens) = validate_syntax tokens.
Proof.
  destruct tokens as [|t0 tokens]; [reflexivity|].
  unfold validate_syntax, validate_event, validate_schedule, validate_condition,
    validate_loop, validate_mode, match_pattern.
  rewrite map_map. cbn [map fold_token snd fst].
  rewrite lower_fold_str.
  replace (map (fun x : token => fst (fold_token x)) tokens) with (map fst tokens)
    by (apply map_ext; reflexivity).
  reflexivity.
Qed.

Lemma validate_syntax_case c1 c2 :
  fold_str c1 = fold_str c2 ->
  validate_syntax (tokenize c1) = validate_syntax (tokenize c2).
Proof.
  intro H.
  rewrite <- (validate_syntax_fold (tokenize c1)), <- (validate_syntax_fold (tokenize c2)).
  unfold tokenize. rewrite <- !tokenize_with_fold, H. reflexivity.
Qed.

(** * The shapes *)

Lemma types_eqb_eq xs ys : types_eqb xs ys = true <-> xs = ys.
Proof.
  unfold types_eqb. destruct (list_eq_dec string_dec xs ys); split; auto; discriminate.
Qed.

Lemma validate_syntax_valid tokens :
  fst (validate_syntax tokens) = true <->
  exists t0 rest kw shape,
    tokens = t0 :: rest /\ In (kw, shape) shapes
    /\ lower (snd t0) = kw /\ map fst tokens = shape.
Proof.
  split.
  - destruct tokens as [|t0 rest]; [discriminate|].
    unfold validate_syntax, validate_event, validate_schedule, validate_condition,
      validate_loop, validate_mode, match_pattern.
    intro H.
    repeat match type of H with
           | fst (if (?a =? ?b)%string then _ else _) = true =>
               destruct (String.eqb_spec a b) as [E|_];
               [cbn [fst] in H; apply types_eqb_eq in H;
                exists t0, rest; eexists _, _;
                split; [reflexivity|split; [|split; [exact E|exact H]]];
                unfold shapes; cbn [In]; auto 10|]
           end.
    discriminate H.
  - intros [t0 [rest [kw [shape [-> [I [L S]]]]]]].
    unfold shapes in I. cbn [In] in I.
    unfold validate_syntax, validate_event, validate_schedule, validate_condition,
      validate_loop, validate_mode, match_pattern.
    repeat (destruct I as [I|I];
            [injection I as E1 E2; rewrite <- E1 in L; rewrite <- E2 in S;
             rewrite L; cbn [String.eqb Ascii.eqb Bool.eqb fst];
             apply types_eqb_eq; exact S|]).
    contradiction.
Qed.

Lemma validate_syntax_message tokens :
  fst (validate_syntax tokens) = true <-> snd (validate_syntax tokens) = "Valid command.".
Proof.
  destruct tokens as [|t0 rest]; [split; discriminate|].
  unfold validate_syntax, validate_event, validate_schedule, validate_condition,
    validate_loop, validate_mode, match_pattern.
  repeat match goal with
         | |- context [if ?b then _ else _] => destruct b
         end; cbn [fst snd]; split; (reflexivity || discriminate).
Qed.

Lemma validate_syntax_messages tokens :
  (fst (validate_syntax tokens) = true /\ snd (validate_syntax tokens) = "Valid command.")
  \/ (fst (validate_syntax tokens) = false
      /\ In (snd (validate_syntax tokens)) syntax_failure_messages).
Proof.
  destruct tokens as [|t0 rest]; [right; split; [reflexivity|left; reflexivity]|].
  unfold validate_syntax, validate_event, validate_schedule, validate_condition,
    validate_loop, validate_mode, match_pattern, syntax_failure_messages.
  repeat match goal with
         | |- context [if ?b then _ else _] => destruct b
         end; cbn [fst snd In]; auto 10.
Qed.

(** * The chains *)

Lemma FlowScriptX_chain_messages command tokens :
  In (FlowScriptX.validate_invalid_command command tokens) FlowScriptX_messages.
Proof.
  unfold FlowScriptX.validate_invalid_command, FlowScriptX_messages.
  repeat match goal with
         | |- context [if ?b then _ else _] => destruct b
         end; cbn [In]; auto 12.
Qed.

Lemma flowscript2_chain_messages command tokens :
  In (flowscript2.validate_invalid_command command tokens) flowscript2_messages.
Proof.
  unfold flowscript2.validate_invalid_command, flowscript2_messages.
  repeat match goal with
         | |- context [if ?b then _ else _] => destruct b
         end; cbn [In]; auto 12.
Qed.

Lemma chain_messages_apart m :
  In m FlowScriptX_messages -> In m syntax_failure_messages -> False.
Proof.
  unfold FlowScriptX_messages, syntax_failure_messages. cbn [In].
  intros H1 H2.
  repeat (destruct H1 as [H1|H1]; [subst m;
    repeat (destruct H2 as [H2|H2]; [discriminate H2|]); contradiction|]).
  contradiction.
Qed.

(** * The first word and the first kind *)

Lemma chr_lower_of_fold c :
  (nat_of_ascii (fold_case c) <? 128) = true -> chr_lower c = fold_case c.
Proof.
  destruct c as [[] [] [] [] [] [] [] []]; intro H;
    try reflexivity; vm_compute in H; discriminate H.
Qed.

Lemma lower_of_fold t : all_ascii (fold_str t) = true -> lower t = fold_str t.
Proof.
  induction t as [|c t IH]; simpl; intro H; [reflexivity|].
  apply andb_prop in H. destruct H as [Hc Ht].
  rewrite (chr_lower_of_fold c Hc), (IH Ht). reflexivity.
Qed.

Lemma lower_word t w :
  w = fold_str t -> all_ascii w = true -> lower t = w.
Proof. intros -> H. apply lower_of_fold, H. Qed.

Lemma chr_lower_digit d : is_digit d = true -> chr_lower d = d.
Proof.
  destruct d as [[] [] [] [] [] [] [] []]; intro H;
    try reflexivity; vm_compute in H; discriminate H.
Qed.

Lemma lower_digit_start d t :
  is_digit d = true -> ~ In (lower (String d t)) (map fst shapes).
Proof.
  intros Hd H. simpl lower in H. rewrite (chr_lower_digit d Hd) in H.
  unfold shapes in H. cbn [map fst In] in H.
  repeat (destruct H as [H|H];
          [inversion H; subst d; vm_compute in Hd; discriminate Hd|]).
  exact H.
Qed.

Lemma digits_start t :
  all_digits t = true -> 1 <= String.length t ->
  exists d t', t = String d t' /\ is_digit d = true.
Proof.
  destruct t as [|d t']; simpl; intros H L; [lia|].
  apply andb_prop in H. destruct H as [H _]. eauto.
Qed.

Ltac fold_words H :=
  match type of H with
  | In _ (map fold_str ?ws) =>
      let l := eval vm_compute in (map fold_str ws) in
      change (map fold_str ws) with l in H
  end.

Lemma token_event_iff command k t :
  In (k, t) (tokenize command) ->
  (k = "EVENT" <-> In (lower t) (map fst shapes)).
Proof.
  intro H.
  destruct (tokenize_origin _ _ _ H) as [pre [s [rest [r [c [_ [I Hd]]]]]]].
  apply hd_error_in in Hd.
  unfold TOKEN_PATTERNS in I. cbn [In] in I.
  repeat (destruct I as [I|I];
          [inversion I; subst k r; clear I;
           try (match type of Hd with
                | In _ (rmatch true ?r0 ?s0) =>
                    pose proof (literals_text r0 _ s0 _ _ _ eq_refl Hd) as W
                end;
                fold_words W; cbn [In] in W;
                repeat (destruct W as [W|W];
                        [rewrite (lower_word _ _ W eq_refl);
                         split; intro X;
                         first [ reflexivity
                               | discriminate X
                               | solve [cbn; auto 10]
                               | exfalso; cbn in X;
                                 repeat (destruct X as [X|X]; [discriminate X|]);
                                 exact X ]|]);
                contradiction)|]);
    try contradiction.
  - (* TIME *)
    apply in_TIME_pattern in Hd.
    destruct Hd as [h [m [mer [-> [D [L _]]]]]].
    destruct (digits_start h D L) as [d [h' [-> Hdg]]].
    split; [discriminate|]. intro X. exfalso.
    apply (lower_digit_start d _ Hdg X).
  - (* TIME_INTERVAL *)
    apply in_TIME_INTERVAL_pattern in Hd.
    destruct Hd as [n [u [-> [D [L _]]]]].
    destruct (digits_start n D L) as [d [n' [-> Hdg]]].
    split; [discriminate|]. intro X. exfalso.
    apply (lower_digit_start d _ Hdg X).
  - (* NUMBER *)
    apply in_rmatch_digits_plus in Hd. destruct Hd as [_ [_ [D L]]].
    destruct (digits_start t D L) as [d [t' [-> Hdg]]].
    split; [discriminate|]. intro X. exfalso.
    apply (lower_digit_start d _ Hdg X).
Qed.

Lemma validate_syntax_start t0 rest :
  snd (validate_syntax (t0 :: rest)) = "Invalid command start."
  <-> ~ In (lower (snd t0)) (map fst shapes).
Proof.
  unfold validate_syntax, validate_event, validate_schedule, validate_condition,
    validate_loop, validate_mode, match_pattern, shapes.
  cbn [map fst In].
  destruct (String.eqb_spec (lower (snd t0)) "on") as [E|N1].
  { split; [|intro X; exfalso; apply X; auto].
    destruct (types_eqb _ _); discriminate. }
  destruct (String.eqb_spec (lower (snd t0)) "schedule") as [E|N2].
  { split; [|intro X; exfalso; apply X; auto].
    destruct (types_eqb _ _); discriminate. }
  destruct (String.eqb_spec (lower (snd t0)) "if") as [E|N3].
  { split; [|intro X; exfalso; apply X; auto].
    destruct (types_eqb _ _); discriminate. }
  destruct (String.eqb_spec (lower (snd t0)) "repeat") as [E|N4].
  { split; [|intro X; exfalso; apply X; auto 6].
    destruct (types_eqb _ _); discriminate. }
  destruct (String.eqb_spec (lower (snd t0)) "activate") as [E|N5].
  { split; [|intro X; exfalso; apply X; auto 6].
    destruct (types_eqb _ _); discriminate. }
  split; [|reflexivity]. intros _ X.
  repeat (destruct X as [X|X]; [congruence|]). exact X.
Qed.

(** * What the diagnostics need in the raw text *)

Lemma prefix_self l s : prefix l (l ++ s) = true.
Proof.
  induction l as [|a l IH]; simpl.
  - destruct s; reflexivity.
  - destruct (ascii_dec a a); [exact IH|congruence].
Qed.

Lemma contains_unfold sub s :
  contains sub s = prefix sub s || match s with
                                   | EmptyString => false
                                   | String _ s' => contains sub s'
                                   end.
Proof. destruct s; reflexivity. Qed.

Lemma contains_intro sub : forall a b, contains sub (a ++ sub ++ b) = true.
Proof.
  induction a as [|x a IH]; intro b.
  - simpl append. rewrite contains_unfold, prefix_self. reflexivity.
  - simpl. rewrite IH. apply orb_true_r.
Qed.

Lemma invalid_time_needs command :
  invalid_time command = true ->
  contains ":" command = true
  /\ (contains "AM" command = true \/ contains "PM" command = true).
Proof.
  intro H. apply invalid_time_spec in H.
  destruct H as [h [m [[pre [mer [post [E [T _]]]]] _]]].
  apply time_like_inv in T. destruct T as [_ [_ [_ [_ [_ M]]]]].
  rewrite time_text_app in E. split.
  - rewrite E, <- append_assoc.
    apply (contains_intro ":" (pre ++ h) (m ++ String " " (mer ++ post))).
  - assert (X : command = ((pre ++ h ++ String ":" (m ++ " ")) ++ mer ++ post)%string).
    { rewrite E, !append_assoc. simpl. rewrite append_assoc. reflexivity. }
    rewrite X. destruct M as [-> | ->]; [left|right]; apply contains_intro.
Qed.

Lemma is_token_eq ty v t : is_token ty v t = true -> t = (ty, v).
Proof.
  unfold is_token. intro H. apply andb_prop in H. destruct H as [H1 H2].
  apply String.eqb_eq in H1, H2. destruct t; simpl in *; congruence.
Qed.

Lemma token_in_command command k t :
  In (k, t) (tokenize command) -> contains t command = true.
Proof.
  intro H.
  apply (embeds_contains (map snd (tokenize command)) command).
  - rewrite tokenize_tokens_from.
    apply (tokens_from_embeds TOKEN_PATTERNS TOKEN_PATTERNS_ok command 0).
  - apply in_map_iff. exists (k, t). auto.
Qed.

(** * The matches that end inside a prefix of the text *)

Lemma filter_map_comm {A B} (P : B -> bool) (f : A -> B) (l : list A) :
  filter P (map f l) = map f (filter (fun x => P (f x)) l).
Proof.
  induction l as [|a l IH]; simpl; [reflexivity|].
  destruct (P (f a)); simpl; congruence.
Qed.

Lemma filter_flat_map {A B} (P : B -> bool) (F : A -> list B) (l : list A) :
  filter P (flat_map F l) = flat_map (fun x => filter P (F x)) l.
Proof.
  induction l as [|a l IH]; simpl; [reflexivity|].
  rewrite filter_app. congruence.
Qed.

Lemma flat_map_filter_nil {A B} (P : A -> bool) (G : A -> list B) (l : list A) :
  (forall x, In x l -> P x = false -> G x = []) ->
  flat_map G l = flat_map G (filter P l).
Proof.
  induction l as [|a l IH]; intro H; simpl; [reflexivity|].
  rewrite IH by (intros; apply H; [right|]; assumption).
  destruct (P a) eqn:E; simpl; [reflexivity|].
  rewrite (H a) by (auto; left; reflexivity). reflexivity.
Qed.

Lemma filter_none {A} (P : A -> bool) (l : list A) :
  (forall x, In x l -> P x = false) -> filter P l = [].
Proof.
  induction l as [|a l IH]; intro H; simpl; [reflexivity|].
  rewrite (H a) by (left; reflexivity). apply IH. intros; apply H; right; assumption.
Qed.

Lemma lit_split_mono ic lit : forall t0 rest0 t r,
  lit_split ic lit t0 = Some (t, r) ->
  lit_split ic lit (t0 ++ rest0) = Some (t, (r ++ rest0)%string).
Proof.
  induction lit as [|a lit IH]; intros t0 rest0 t r H; simpl in *.
  - inversion H; subst. reflexivity.
  - destruct t0 as [|b t0]; [discriminate|]. simpl.
    destruct (chr_eqb ic a b); [|discriminate].
    destruct (lit_split ic lit t0) as [[t' r']|] eqn:E; [|discriminate].
    inversion H; subst. rewrite (IH _ rest0 _ _ E). reflexivity.
Qed.

Lemma lit_split_inside ic lit : forall t0 rest0 t r,
  lit_split ic lit (t0 ++ rest0) = Some (t, r) ->
  String.length t <= String.length t0 ->
  exists r', lit_split ic lit t0 = Some (t, r') /\ r = (r' ++ rest0)%string.
Proof.
  induction lit as [|a lit IH]; intros t0 rest0 t r H L; simpl in *.
  - inversion H; subst. exists t0. auto.
  - destruct t0 as [|b t0].
    + simpl in H. destruct rest0 as [|b rest0]; [discriminate|].
      destruct (chr_eqb ic a b); [|discriminate].
      destruct (lit_split ic lit rest0) as [[t' r']|]; [|discriminate].
      inversion H; subst. simpl in L. lia.
    + simpl in H. destruct (chr_eqb ic a b); [|discriminate].
      destruct (lit_split ic lit (t0 ++ rest0)) as [[t' r']|] eqn:E; [|discriminate].
      inversion H; subst. simpl in L.
      destruct (IH _ _ _ _ E ltac:(lia)) as [r'' [E' ->]].
      rewrite E'. exists r''. auto.
Qed.

Lemma digit_splits_within lo hi rest0 : forall t0 n,
  filter (fun m : string * string => String.length (fst m) <=? String.length t0)
         (digit_splits lo hi n (t0 ++ rest0))
  = map (fun m => (fst m, (snd m ++ rest0)%string)) (digit_splits lo hi n t0).
Proof.
  induction t0 as [|a t0 IH]; intro n.
  - simpl append. cbn [digit_splits String.length].
    assert (Hhere : filter (fun m : string * string => String.length (fst m) <=? 0)
                      (if lo <=? n then [(EmptyString, rest0)] else [])
                    = map (fun m => (fst m, (snd m ++ rest0)%string))
                        (if lo <=? n then [(EmptyString, EmptyString)] else [])).
    { destruct (lo <=? n); reflexivity. }
    destruct rest0 as [|c rest0]; [exact Hhere|].
    cbn [digit_splits]. destruct (is_digit c && below hi n); [|exact Hhere].
    rewrite filter_app, Hhere, filter_map_comm, filter_none; [reflexivity|].
    intros x _. reflexivity.
  - simpl append. cbn [digit_splits].
    assert (Hhere : filter (fun m : string * string =>
                              String.length (fst m) <=? String.length (String a t0))
                      (if lo <=? n then [(EmptyString, String a (t0 ++ rest0))] else [])
                    = map (fun m => (fst m, (snd m ++ rest0)%string))
                        (if lo <=? n then [(EmptyString, String a t0)] else [])).
    { destruct (lo <=? n); reflexivity. }
    destruct (is_digit a && below hi n); [|exact Hhere].
    rewrite filter_app, Hhere, map_app, filter_map_comm. f_equal.
    cbn [fst String.length]. 
    rewrite (filter_ext _ (fun m : string * string =>
                             String.length (fst m) <=? String.length t0))
      by (intros [x y]; reflexivity).
    rewrite IH, !map_map. reflexivity.
Qed.

Lemma rmatch_within ic r : forall t0 rest0,
  filter (fun m : rmatch_result =>
            String.length (snd (fst m)) <=? String.length t0)
         (rmatch ic r (t0 ++ rest0))
  = map (extend rest0) (rmatch ic r t0).
Proof.
  induction r as [lit|lo hi|r1 IH1 r2 IH2|r1 IH1 r2 IH2|name r1 IH1];
    intros t0 rest0; cbn [rmatch].
  - destruct (lit_split ic lit (t0 ++ rest0)) as [[t r]|] eqn:E.
    + cbn [filter fst snd].
      destruct (String.length t <=? String.length t0) eqn:L.
      * apply Nat.leb_le in L.
        destruct (lit_split_inside _ _ _ _ _ _ E L) as [r' [E' ->]].
        rewrite E'. reflexivity.
      * destruct (lit_split ic lit t0) as [[t' r']|] eqn:E'; [|reflexivity].
        exfalso. pose proof (lit_split_mono _ _ _ rest0 _ _ E') as M.
        rewrite E in M. inversion M; subst.
        apply lit_split_app in E'. destruct E' as [E' _].
        apply (f_equal String.length) in E'. rewrite length_append in E'.
        apply Nat.leb_gt in L. lia.
    + destruct (lit_split ic lit t0) as [[t' r']|] eqn:E'; [|reflexivity].
      rewrite (lit_split_mono _ _ _ rest0 _ _ E') in E. discriminate.
  - rewrite filter_map_comm. cbn [fst snd].
    rewrite digit_splits_within, !map_map. reflexivity.
  - rewrite filter_flat_map.
    rewrite (flat_map_filter_nil
               (fun m : rmatch_result =>
                  String.length (snd (fst m)) <=? String.length t0)).
    + rewrite IH1, flat_map_map, map_flat_map.
      apply flat_map_ext_in. intros [[c1 t1] s1] Hin. cbn [extend].
      rewrite filter_map_comm.
      pose proof (rmatch_app _ _ _ _ _ _ Hin) as Ht0.
      rewrite (filter_ext _ (fun m : rmatch_result =>
                               String.length (snd (fst m)) <=? String.length s1)).
      * rewrite IH2, !map_map. apply map_ext. intros [[c2 t2] s2]. reflexivity.
      * intros [[c2 t2] s2]. cbn [fst snd]. rewrite Ht0, !length_append.
        destruct (String.length t2 <=? String.length s1) eqn:X.
        -- apply Nat.leb_le in X. apply Nat.leb_le. lia.
        -- apply Nat.leb_gt in X. apply Nat.leb_gt. lia.
    + intros [[c1 t1] s1] Hin L. cbn [fst snd] in L.
      apply filter_none. intros x Hx. apply in_map_iff in Hx.
      destruct Hx as [[[c2 t2] s2] [<- _]]. cbn [fst snd].
      apply Nat.leb_gt in L. apply Nat.leb_gt. rewrite length_append. lia.
  - rewrite filter_app, IH1, IH2, map_app. reflexivity.
  - rewrite filter_map_comm.
    rewrite (filter_ext _ (fun m : rmatch_result =>
                             String.length (snd (fst m)) <=? String.length t0))
      by (intros [[c t] s]; reflexivity).
    rewrite IH1, !map_map. apply map_ext. intros [[c t] s]. reflexivity.
Qed.

Lemma rmatch_nil_prefix ic r t0 rest0 :
  rmatch ic r (t0 ++ rest0) = [] -> rmatch ic r t0 = [].
Proof.
  intro H. pose proof (rmatch_within ic r t0 rest0) as W. rewrite H in W.
  simpl in W. destruct (rmatch ic r t0); [reflexivity|discriminate].
Qed.

Lemma append_same_length_nil (r rest : string) :
  (r ++ rest)%string = rest -> r = EmptyString.
Proof.
  intro H. apply (f_equal String.length) in H. rewrite length_append in H.
  destruct r; [reflexivity|simpl in H; lia].
Qed.

Lemma hd_within ic r c t rest :
  hd_error (rmatch ic r (t ++ rest)) = Some (c, t, rest) ->
  hd_error (rmatch ic r t) = Some (c, t, EmptyString).
Proof.
  intro H. pose proof (rmatch_within ic r t rest) as W.
  destruct (rmatch ic r (t ++ rest)) as [|m l]; [discriminate|].
  inversion H; subst m. cbn [filter fst snd] in W. rewrite Nat.leb_refl in W.
  destruct (rmatch ic r t) as [|[[c' t'] r'] l']; [discriminate|].
  cbn [map extend] in W. injection W as Hc Ht Hr _.
  symmetry in Hr. rewrite (append_same_length_nil _ _ Hr), <- Hc, <- Ht.
  reflexivity.
Qed.

Lemma next_token_alone ps : forall k t rest,
  next_token ps (t ++ rest) = Some ((k, t), rest) ->
  next_token ps t = Some ((k, t), EmptyString).
Proof.
  induction ps as [|kp ps IH]; intros k t rest H; simpl in H; [discriminate|].
  destruct (rmatch true (snd kp) (t ++ rest)) as [|[[c0 t0] rest0] l] eqn:E.
  - rewrite (next_token_skip kp ps t (rmatch_nil_prefix _ _ _ _ E)). eauto.
  - inversion H; subst.
    apply (next_token_hit kp ps t c0). apply (hd_within true _ c0 t rest).
    rewrite E. reflexivity.
Qed.

Lemma tokenize_lexeme command k t :
  In (k, t) (tokenize command) -> tokenize t = [(k, t)].
Proof.
  intro H. rewrite tokenize_tokens_from in H.
  destruct (token_origin _ TOKEN_PATTERNS_ok _ _ _ H) as [pre [s [rest [_ N]]]].
  assert (Hall : forallb (fun kp => nonnull (snd kp) && unnamed (snd kp))
                   TOKEN_PATTERNS = true) by reflexivity.
  destruct (next_token_sound _ _ _ _ _ Hall N) as [-> _].
  apply next_token_alone in N.
  rewrite tokenize_tokens_from, (tokens_from_emit _ _ _ _ _ TOKEN_PATTERNS_ok N).
  rewrite tokens_from_nil by reflexivity. reflexivity.
Qed.

Lemma tokenize_joined (l : list token) :
  (forall kt, In kt l -> tokenize (snd kt) = [kt]) ->
  tokenize (String.concat "," (map snd l)) = l.
Proof.
  induction l as [|kt l IH]; intro H; [reflexivity|].
  assert (Hk : tokenize (snd kt) = [kt]) by (apply H; left; reflexivity).
  assert (Hl : tokenize (String.concat "," (map snd l)) = l)
    by (apply IH; intros; apply H; right; assumption).
  destruct l as [|kt' l]; [exact Hk|].
  change (String.concat "," (map snd (kt :: kt' :: l)))
    with (snd kt ++ String "," (String.concat "," (map snd (kt' :: l))))%string.
  rewrite tokenize_separator by reflexivity. rewrite Hk, Hl. reflexivity.
Qed.

(** * The loops *)

Lemma FlowScriptX_turn_tables fill repr tabs user_input :
  (fst (validate_syntax (tokenize user_input)) = true ->
   FlowScriptX_turn fill repr tabs user_input
   = {| valid_table := valid_table tabs
                       ++ [[fill user_input 25;
                            fill (formatted_tokens repr (tokenize user_input)) 50;
                            fill "Valid command." 40]];
        invalid_table := invalid_table tabs |})
  /\ (fst (validate_syntax (tokenize user_input)) = false ->
      FlowScriptX_turn fill repr tabs user_input
      = {| valid_table := valid_table tabs;
           invalid_table := invalid_table tabs
                            ++ [[fill user_input 25;
                                 fill (formatted_tokens repr (tokenize user_input)) 50;
                                 fill (FlowScriptX.validate_invalid_command user_input
                                         (tokenize user_input)) 50]] |}).
Proof.
  unfold FlowScriptX_turn, wrap_text.
  pose proof (validate_syntax_message (tokenize user_input)) as M.
  destruct (validate_syntax (tokenize user_input)) as [[] m]; cbn [fst snd] in *.
  - split; [|discriminate]. intros _. rewrite (proj1 M eq_refl). reflexivity.
  - split; [discriminate|]. reflexivity.
Qed.

Lemma FlowScriptX_fold fill repr inputs : forall tabs,
  valid_table (fold_left (FlowScriptX_turn fill repr) inputs tabs)
  = valid_table tabs
    ++ map (fun c => [fill c 25; fill (formatted_tokens repr (tokenize c)) 50;
                      fill "Valid command." 40])
           (filter (fun c => fst (validate_syntax (tokenize c))) inputs)
  /\ invalid_table (fold_left (FlowScriptX_turn fill repr) inputs tabs)
     = invalid_table tabs
       ++ map (fun c => [fill c 25; fill (formatted_tokens repr (tokenize c)) 50;
                         fill (FlowScriptX.validate_invalid_command c (tokenize c)) 50])
              (filter (fun c => negb (fst (validate_syntax (tokenize c)))) inputs).
Proof.
  induction inputs as [|c inputs IH]; intro tabs; cbn [fold_left filter map].
  - rewrite !app_nil_r. split; reflexivity.
  - destruct (IH (FlowScriptX_turn fill repr tabs c)) as [IHv IHi].
    rewrite IHv, IHi.
    destruct (FlowScriptX_turn_tables fill repr tabs c) as [Tv Ti].
    destruct (fst (validate_syntax (tokenize c))) eqn:V; cbn [negb].
    + rewrite (Tv eq_refl). cbn [valid_table invalid_table map].
      rewrite <- app_assoc. split; reflexivity.
    + rewrite (Ti eq_refl). cbn [valid_table invalid_table map].
      rewrite <- app_assoc. split; reflexivity.
Qed.

Lemma filter_negb_length {A} (f : A -> bool) (l : list A) :
  List.length (filter f l) + List.length (filter (fun x => negb (f x)) l)
  = List.length l.
Proof.
  induction l as [|a l IH]; simpl; [reflexivity|].
  destruct (f a); simpl; lia.
Qed.

(** * Further properties of the program *)

(** ** The tokenizer *)

(** X1: the lexemes of the tokens occur in the command from left to right
    without overlap, and none is empty; so the lexemes together are not
    longer than the command, and there are no more tokens than
    characters. *)
Theorem lexemes_lie_in_command_in_order :
  forall command : string,
    embeds (map snd (tokenize command)) command
    /\ (forall t, In t (tokenize command) -> snd t <> EmptyString)
    /\ total_length (map snd (tokenize command)) <= String.length command
    /\ List.length (tokenize command) <= String.length command.
Proof.
  intro command.
  assert (E : embeds (map snd (tokenize command)) command).
  { rewrite tokenize_tokens_from.
    apply (tokens_from_embeds TOKEN_PATTERNS TOKEN_PATTERNS_ok command 0). }
  assert (N : forall t, In t (tokenize command) -> snd t <> EmptyString).
  { intros t H. rewrite tokenize_tokens_from in H.
    apply (tokens_nonempty _ TOKEN_PATTERNS_ok _ _ _ H). }
  pose proof (embeds_total_length _ _ E) as L.
  split; [exact E|]. split; [exact N|]. split; [exact L|].
  replace (List.length (tokenize command))
    with (List.length (map snd (tokenize command))) by apply length_map.
  eapply Nat.le_trans; [|exact L].
  apply total_length_count. intros l I. apply in_map_iff in I.
  destruct I as [t [<- I]]. auto.
Qed.

(** X2: the lexeme of a token fits the rule of its kind.  For a kind given
    by a list of words, the lexeme is one of these words up to the case of
    its letters; a NUMBER lexeme is made of digits; a TIME lexeme is H:MM,
    a space and AM or PM in any case; a TIME_INTERVAL lexeme is digits, a
    space and seconds, minutes or hours in any case. *)
Theorem lexeme_fits_its_kind :
  forall (command k t : string),
    In (k, t) (tokenize command) ->
    (exists ws, In (k, words ws) TOKEN_PATTERNS /\ In (fold_str t) (map fold_str ws))
    \/ (k = "NUMBER" /\ all_digits t = true)
    \/ (k = "TIME"
        /\ exists h m mer,
             t = time_text h m mer
             /\ all_digits h = true /\ 1 <= String.length h /\ String.length h <= 2
             /\ all_digits m = true /\ String.length m = 2
             /\ (fold_str mer = "am" \/ fold_str mer = "pm"))
    \/ (k = "TIME_INTERVAL"
        /\ exists n u,
             t = interval_text n u
             /\ all_digits n = true /\ 1 <= String.length n
             /\ In (fold_str u) ["seconds"; "minutes"; "hours"]).
Proof.
  intros command k t H.
  destruct (tokenize_origin _ _ _ H) as [pre [s [rest [r [c [_ [I Hd]]]]]]].
  apply hd_error_in in Hd.
  pose proof I as I0.
  unfold TOKEN_PATTERNS in I. cbn [In] in I.
  repeat (destruct I as [I|I];
          [inversion I; subst k r; clear I;
           try (left; eexists; split; [exact I0|];
                eapply literals_text; [|exact Hd]; reflexivity)|]);
    try contradiction.
  - right. right. left. split; [reflexivity|]. apply (in_TIME_pattern _ _ _ _ Hd).
  - right. right. right. split; [reflexivity|].
    apply (in_TIME_INTERVAL_pattern _ _ _ _ Hd).
  - right. left. split; [reflexivity|].
    apply in_rmatch_digits_plus in Hd. tauto.
Qed.

Lemma lexeme_fits_its_kind_witness :
  In ("TIME", "6:00 am") (tokenize "at 6:00 am")
  /\ ((exists ws, In ("TIME", words ws) TOKEN_PATTERNS
                  /\ In (fold_str "6:00 am") (map fold_str ws))
      \/ ("TIME" = "NUMBER" /\ all_digits "6:00 am" = true)
      \/ ("TIME" = "TIME"
          /\ exists h m mer,
               "6:00 am" = time_text h m mer
               /\ all_digits h = true /\ 1 <= String.length h /\ String.length h <= 2
               /\ all_digits m = true /\ String.length m = 2
               /\ (fold_str mer = "am" \/ fold_str mer = "pm"))
      \/ ("TIME" = "TIME_INTERVAL"
          /\ exists n u,
               "6:00 am" = interval_text n u
               /\ all_digits n = true /\ 1 <= String.length n
               /\ In (fold_str u) ["seconds"; "minutes"; "hours"])).
Proof.
  assert (I : In ("TIME", "6:00 am") (tokenize "at 6:00 am")).
  { vm_compute. right. left. reflexivity. }
  split; [exact I|].
  exact (lexeme_fits_its_kind "at 6:00 am" "TIME" "6:00 am" I).
Defined.

(** X3: an OPERATOR token has the lexeme [>], [<] or [==]; the lexemes
    [>=] and [<=], though listed in the rule, are never produced. *)
Theorem operator_lexemes :
  forall (command t : string),
    In ("OPERATOR", t) (tokenize command) -> t = ">" \/ t = "<" \/ t = "==".
Proof.
  intros command t H.
  destruct (tokenize_origin _ _ _ H) as [pre [s [rest [r [c [_ [I Hd]]]]]]].
  assert (E : r = words [">"; "<"; ">="; "<="; "=="]).
  { apply (TOKEN_PATTERNS_functional "OPERATOR"); [exact I|].
    unfold TOKEN_PATTERNS. cbn [In]. do 8 right. left. reflexivity. }
  subst r. apply (hd_OPERATOR _ _ _ _ Hd).
Qed.

Lemma operator_lexemes_witness :
  ">" = ">" \/ ">" = "<" \/ ">" = "==".
Proof.
  apply (operator_lexemes "if humidity >= 70 then turn on fan" ">").
  vm_compute. right. right. left. reflexivity.
Defined.

(** X4: a character that is no letter, no digit and none of space, colon,
    [<], [>], [=] separates tokens and leaves no trace: the tokens of a
    text with such a character in it are the tokens of the part before it
    followed by those of the part after it. *)
Theorem separator_splits_the_text :
  forall (c : ascii) (pre post : string),
    separator c = true ->
    tokenize (pre ++ String c post) = tokenize pre ++ tokenize post.
Proof. exact tokenize_separator. Qed.

Lemma separator_splits_the_text_witness :
  tokenize ("on motion detected" ++ String "," " then turn on lights")
  = tokenize "on motion detected" ++ tokenize " then turn on lights".
Proof.
  apply (separator_splits_the_text "," "on motion detected" " then turn on lights").
  reflexivity.
Defined.

(** ** The validator *)

(** X5: the verdict does not depend on the case of the ASCII letters: two
    commands that are equal but for A-Z written a-z, or the reverse, get
    the same answer from [validate_syntax], hence land in the same table
    in both files.  ([fold_str] folds A-Z only; it leaves every other
    character as it is.) *)
Theorem verdict_ignores_case :
  forall c1 c2 : string,
    fold_str c1 = fold_str c2 ->
    validate_syntax (tokenize c1) = validate_syntax (tokenize c2)
    /\ fst (FlowScriptX.main_loop_row c1) = fst (FlowScriptX.main_loop_row c2)
    /\ fst (flowscript2.main_loop_row c1) = fst (flowscript2.main_loop_row c2).
Proof.
  intros c1 c2 H. pose proof (validate_syntax_case c1 c2 H) as V.
  split; [exact V|].
  unfold FlowScriptX.main_loop_row, flowscript2.main_loop_row. rewrite V.
  destruct (validate_syntax (tokenize c2)) as [[] m]; split; reflexivity.
Qed.

Lemma verdict_ignores_case_witness :
  validate_syntax (tokenize "ON Motion DETECTED Then Turn On LIGHTS")
  = validate_syntax (tokenize "on motion detected then turn on lights").
Proof.
  exact (proj1 (verdict_ignores_case "ON Motion DETECTED Then Turn On LIGHTS"
                  "on motion detected then turn on lights" eq_refl)).
Defined.

(** X6: [validate_syntax] accepts a token list exactly when the lexeme of
    its first token, in lower case, is the first word of one of the five
    shapes and the kinds of the tokens are the kinds of that very shape;
    the message is "Valid command." exactly for the accepted lists. *)
Theorem validate_syntax_accepts_the_shapes :
  forall tokens : list token,
    (fst (validate_syntax tokens) = true <->
     exists t0 rest kw shape,
       tokens = t0 :: rest /\ In (kw, shape) shapes
       /\ lower (snd t0) = kw /\ map fst tokens = shape)
    /\ (fst (validate_syntax tokens) = true <->
        snd (validate_syntax tokens) = "Valid command.").
Proof.
  intro tokens. split; [apply validate_syntax_valid|apply validate_syntax_message].
Qed.

(** X8: what the main loop reports.  A valid command is reported with
    "Valid command."; an invalid one with a message of the diagnostic chain
    of the file; the messages that [validate_syntax] gives to invalid
    commands ("Empty command.", "Invalid command start.", "Syntax error in
    command.") are never reported. *)
Theorem reported_messages :
  forall user_input : string,
    (FlowScriptX.main_loop_row user_input = (true, "Valid command.")
     \/ exists m, FlowScriptX.main_loop_row user_input = (false, m)
                  /\ In m FlowScriptX_messages)
    /\ (flowscript2.main_loop_row user_input = (true, "Valid command.")
        \/ exists m, flowscript2.main_loop_row user_input = (false, m)
                     /\ In m flowscript2_messages)
    /\ ~ In (snd (FlowScriptX.main_loop_row user_input)) syntax_failure_messages
    /\ ~ In (snd (flowscript2.main_loop_row user_input)) syntax_failure_messages.
Proof.
  intro user_input.
  unfold FlowScriptX.main_loop_row, flowscript2.main_loop_row.
  pose proof (validate_syntax_messages (tokenize user_input)) as V.
  pose proof (FlowScriptX_chain_messages user_input (tokenize user_input)) as CX.
  pose proof (flowscript2_chain_messages user_input (tokenize user_input)) as C2.
  assert (C2' : In (flowscript2.validate_invalid_command user_input (tokenize user_input))
                   FlowScriptX_messages).
  { revert C2. unfold flowscript2_messages, FlowScriptX_messages. cbn [In].
    intuition auto. }
  destruct (validate_syntax (tokenize user_input)) as [[] m]; cbn [fst snd] in *.
  - destruct V as [[_ ->]|[V _]]; [|discriminate V].
    repeat split; auto; intro H; unfold syntax_failure_messages in H; cbn [In] in H;
      repeat (destruct H as [H|H]; [discriminate H|]); exact H.
  - repeat split; eauto; intro H.
    + apply (chain_messages_apart _ CX H).
    + apply (chain_messages_apart _ C2' H).
Qed.

(** X7: on the tokens of a command, a first token whose kind is not EVENT
    always gets the answer "Invalid command start."; a first token of kind
    EVENT whose lexeme is made of ASCII characters never gets it.  (The
    condition on the lexeme is what the program needs outside the alphabet
    modelled here: re.IGNORECASE also reads U+0131 as an i, which
    [str.lower] leaves as it is.) *)
Theorem first_kind_decides_invalid_start :
  forall (command k t : string) (rest : list token),
    tokenize command = (k, t) :: rest ->
    (k <> "EVENT" ->
     snd (validate_syntax (tokenize command)) = "Invalid command start.")
    /\ (k = "EVENT" -> all_ascii t = true ->
        snd (validate_syntax (tokenize command)) <> "Invalid command start.").
Proof.
  intros command k t rest E.
  assert (I : In (k, t) (tokenize command)) by (rewrite E; left; reflexivity).
  pose proof (token_event_iff command k t I) as EV.
  rewrite E. split.
  - intro N. apply validate_syntax_start. cbn [snd]. intro L. apply N, EV, L.
  - intros K _ M. apply validate_syntax_start in M. cbn [snd] in M.
    apply M, EV, K.
Qed.

Lemma first_kind_decides_invalid_start_witness :
  tokenize "lights" = [("DEVICE", "lights")]
  /\ snd (validate_syntax (tokenize "lights")) = "Invalid command start."
  /\ tokenize "ON" = [("EVENT", "ON")]
  /\ snd (validate_syntax (tokenize "ON")) <> "Invalid command start.".
Proof.
  assert (E1 : tokenize "lights" = [("DEVICE", "lights")]) by (vm_compute; reflexivity).
  assert (E2 : tokenize "ON" = [("EVENT", "ON")]) by (vm_compute; reflexivity).
  split; [exact E1|]. split.
  - apply (proj1 (first_kind_decides_invalid_start "lights" "DEVICE" "lights" [] E1)).
    discriminate.
  - split; [exact E2|].
    apply (proj2 (first_kind_decides_invalid_start "ON" "EVENT" "ON" [] E2));
      reflexivity.
Defined.

(** ** The diagnostics and the raw text *)

(** X9: the invalid-time diagnostic is given only to a raw text that
    contains a colon and an upper-case "AM" or "PM".  (The tokenizer takes
    a time in any case; the time check does not.) *)
Theorem time_diagnostic_needs_uppercase_meridiem :
  forall (command : string) (tokens : list token),
    FlowScriptX.validate_invalid_command command tokens = msg_time
    \/ flowscript2.validate_invalid_command command tokens = msg_time ->
    contains ":" command = true
    /\ (contains "AM" command = true \/ contains "PM" command = true).
Proof.
  intros command tokens H. apply invalid_time_needs.
  destruct (invalid_time command) eqn:IT; [reflexivity|]. exfalso.
  unfold FlowScriptX.validate_invalid_command, flowscript2.validate_invalid_command in H.
  rewrite IT in H.
  destruct H as [H|H];
    repeat match type of H with
           | (if ?b then _ else _) = _ => destruct b
           end; discriminate H.
Qed.

Lemma time_diagnostic_needs_uppercase_meridiem_witness :
  contains ":" "schedule cooling at 14:99 PM" = true
  /\ (contains "AM" "schedule cooling at 14:99 PM" = true
      \/ contains "PM" "schedule cooling at 14:99 PM" = true).
Proof.
  apply (time_diagnostic_needs_uppercase_meridiem "schedule cooling at 14:99 PM"
           (tokenize "schedule cooling at 14:99 PM")).
  left. vm_compute. reflexivity.
Defined.

(** X10: on the tokens of a command, the open-lights diagnostic is given
    only when the raw text contains "open" and "lights" in lower case. *)
Theorem open_lights_diagnostic_needs_the_words :
  forall command : string,
    FlowScriptX.validate_invalid_command command (tokenize command) = msg_open_lights
    \/ flowscript2.validate_invalid_command command (tokenize command) = msg_open_lights ->
    contains "open" command = true /\ contains "lights" command = true.
Proof.
  intros command H.
  unfold FlowScriptX.validate_invalid_command, flowscript2.validate_invalid_command in H.
  destruct (existsb (is_token "OPERATION" "open") (tokenize command)
            && existsb (is_token "DEVICE" "lights") (tokenize command)) eqn:D.
  2:{ exfalso.
      destruct H as [H|H];
        repeat match type of H with
               | (if ?b then _ else _) = _ => destruct b
               end; discriminate H. }
  clear H. apply andb_prop in D. destruct D as [D1 D2].
  apply existsb_exists in D1, D2.
  destruct D1 as [t1 [I1 E1]]. destruct D2 as [t2 [I2 E2]].
  apply is_token_eq in E1, E2. subst t1 t2.
  split; eapply token_in_command; eassumption.
Qed.

Lemma open_lights_diagnostic_needs_the_words_witness :
  contains "open" "on humidity triggered then open lights" = true
  /\ contains "lights" "on humidity triggered then open lights" = true.
Proof.
  apply (open_lights_diagnostic_needs_the_words "on humidity triggered then open lights").
  left. vm_compute. reflexivity.
Defined.

(** ** Round trips *)

(** X11: the lexeme of a token, tokenized alone, gives that token and
    nothing else. *)
Theorem lexeme_alone_gives_its_token :
  forall (command k t : string),
    In (k, t) (tokenize command) -> tokenize t = [(k, t)].
Proof. exact tokenize_lexeme. Qed.

Lemma lexeme_alone_gives_its_token_witness :
  tokenize "10:00 PM" = [("TIME", "10:00 PM")].
Proof.
  apply (lexeme_alone_gives_its_token
           "activate night mode from 10:00 PM to 6:00 AM" "TIME" "10:00 PM").
  vm_compute. do 3 right. left. reflexivity.
Defined.

(** X12: the tokens of a command are found again from their lexemes: the
    lexemes joined by commas tokenize to the same token list.  (What the
    tokenizer skipped is lost; what it kept is stable.) *)
Theorem tokens_are_stable :
  forall command : string,
    tokenize (String.concat "," (map snd (tokenize command))) = tokenize command.
Proof.
  intro command. apply tokenize_joined.
  intros [k t] I. apply (tokenize_lexeme command k t I).
Qed.

(** ** The loops *)

(** X13: the loop of [FlowScriptX.py] puts every command in exactly one of
    the two tables, in the order of the input: the table of valid commands
    holds a row for each command that [validate_syntax] accepts, with the
    message "Valid command."; the table of invalid commands a row for each
    of the others, with the answer of the diagnostic chain. *)
Theorem FlowScriptX_loop_fills_the_tables :
  forall (fill : string -> nat -> string) (repr : string -> string)
         (inputs : list string),
    valid_table (FlowScriptX_loop fill repr inputs)
    = map (fun c => [fill c 25; fill (formatted_tokens repr (tokenize c)) 50;
                     fill "Valid command." 40])
          (filter (fun c => fst (validate_syntax (tokenize c))) inputs)
    /\ invalid_table (FlowScriptX_loop fill repr inputs)
       = map (fun c => [fill c 25; fill (formatted_tokens repr (tokenize c)) 50;
                        fill (FlowScriptX.validate_invalid_command c (tokenize c)) 50])
             (filter (fun c => negb (fst (validate_syntax (tokenize c)))) inputs)
    /\ List.length (valid_table (FlowScriptX_loop fill repr inputs))
       + List.length (invalid_table (FlowScriptX_loop fill repr inputs))
       = List.length inputs.
Proof.
  intros fill repr inputs. unfold FlowScriptX_loop.
  destruct (FlowScriptX_fold fill repr inputs
              {| valid_table := []; invalid_table := [] |}) as [V I].
  cbn [valid_table invalid_table app] in V, I.
  split; [exact V|]. split; [exact I|].
  rewrite V, I, !length_map. apply filter_negb_length.
Qed.

(** X14: the run of [flowscript2.py].  Of its thirteen test commands the
    first six, which the source lists as valid, fill the table of valid
    commands; the last seven, which it lists as invalid, fill the table of
    invalid commands, with the diagnostics below. *)
Theorem flowscript2_run_tables :
  forall (fill : string -> nat -> string) (repr : string -> string),
    valid_table (flowscript2_run fill repr)
    = map (fun c => [fill c 25; fill (formatted_tokens repr (tokenize c)) 50;
                     fill "Valid command." 40])
          (firstn 6 commands)
    /\ invalid_table (flowscript2_run fill repr)
       = map (fun cm => [fill (fst cm) 25;
                         fill (formatted_tokens repr (tokenize (fst cm))) 50;
                         fill (snd cm) 50])
             (combine (skipn 6 commands)
                [msg_when; msg_then_if; msg_open_lights; msg_time; msg_from_to;
                 msg_fallback; msg_fallback]).
Proof. intros fill repr. split; vm_compute; reflexivity. Qed.
